(** * csp_yield.py: backtracking search over a constraint-satisfaction problem

  A shallow embedding of [class CSP] of
  [2019/Kopek_Constraint_Satisfaction/ff_and_propagate/csp_yield.py]:
  the constructor, [add_constraint], the generator [backtracking_search]
  and [consistent].

  Python dictionaries are finite maps ([gmap]), Python sets are finite sets
  ([gset]); a generator is the sequence of values it yields together with
  the exception, if any, that ends it. *)

From stdpp Require Import gmap strings list fin_maps fin_sets sorting.

(** ** Exceptions *)

(** The two exceptions the class can raise by itself: the explicit
  [raise LookupError(...)] of the constructor and of [add_constraint], and
  the [KeyError] of a failed subscript [self.constraints[v]]. *)
Inductive exn :=
  | LookupError (msg : string)
  | KeyError.

Definition MissingDomainError : exn :=
  LookupError "Every variable should have a domain assigned to it."%string.

Definition UnknownVariableError : exn :=
  LookupError "Variable in constraint not in CSP"%string.

(** ** The [Constraint] interface

  [csp.Constraint] is imported, not defined, by csp_yield.py.  The class
  uses three members of it: the attribute [variables] and the methods
  [satisfied(assignment)] and [propagate(var, value, unassigned)].  The
  third argument of [propagate] is whatever the previous constraint of the
  chain returned, hence possibly [None]. *)
Module Constraint.
Record t (V D : Type) `{Countable V, Countable D} := Build {
  variables : list V;
  satisfied : gmap V D → bool;
  propagate : V → D → option (gmap V (gset D)) → option (gmap V (gset D));
}.
Arguments Build {V D _ _ _ _} _ _ _.
Arguments variables {V D _ _ _ _} _.
Arguments satisfied {V D _ _ _ _} _ _.
Arguments propagate {V D _ _ _ _} _ _ _ _.
End Constraint.

Abbreviation Constraint := Constraint.t.

(** ** The [CSP] object *)

Record CSP (V D : Type) `{Countable V, Countable D} := Build_CSP {
  variables : list V;
  domains : gmap V (gset D);
  constraints : gmap V (list (Constraint V D));
  low_mark : nat;
  count : nat;
}.
Arguments Build_CSP {V D _ _ _ _} _ _ _ _ _.
Arguments variables {V D _ _ _ _} _.
Arguments domains {V D _ _ _ _} _.
Arguments constraints {V D _ _ _ _} _.
Arguments low_mark {V D _ _ _ _} _.
Arguments count {V D _ _ _ _} _.

(** The keyword arguments of [backtracking_search]. *)
Record Config := Build_Config {
  search_strategy : string;
  propagate_constraints : bool;
  order_domain : bool;
  check_constraints : bool;
}.

(** The defaults of the signature. *)
Definition default_config : Config :=
  {| search_strategy := "ff"%string; propagate_constraints := true;
     order_domain := true; check_constraints := false |}.

(** What running a generator to exhaustion produces: the values yielded, in
  order; the exception that ended it, if one did; the object afterwards;
  what was printed. *)
Record Run (V D : Type) `{Countable V, Countable D} := Build_Run {
  yielded : list (gmap V D);
  raised : option exn;
  final : CSP V D;
  printed : list (nat * string);
}.
Arguments Build_Run {V D _ _ _ _} _ _ _ _.
Arguments yielded {V D _ _ _ _} _.
Arguments raised {V D _ _ _ _} _.
Arguments final {V D _ _ _ _} _.
Arguments printed {V D _ _ _ _} _.

Section csp.
Context {V D : Type} `{Countable V, Countable D}.

Abbreviation Assignment := (gmap V D).
Abbreviation Domains := (gmap V (gset D)).

(** [csp.select_next_var], imported by csp_yield.py: from the strategy,
    the ordering flag and the unassigned dictionary, the variable to assign
    next and the sequence of values to try for it. *)
Variable select_next_var : string → bool → Domains → V * list D.

(** *** [CSP.__init__] *)

(** The loop of the constructor: every variable gets an empty constraint
    list, and the first variable without a domain stops the loop. *)
Fixpoint init_loop (domains : Domains) (vars : list V)
    (constraints : gmap V (list (Constraint V D)))
    : exn + gmap V (list (Constraint V D)) :=
  match vars with
  | [] => inr constraints
  | variable :: rest =>
      let constraints := <[variable := []]> constraints in
      match domains !! variable with
      | None => inl MissingDomainError
      | Some _ => init_loop domains rest constraints
      end
  end.

Definition __init__ (variables : list V) (domains : Domains)
    : exn + CSP V D :=
  match init_loop domains variables ∅ with
  | inl e => inl e
  | inr constraints =>
      inr (Build_CSP variables domains constraints (length variables) 0)
  end.

(** *** [CSP.add_constraint] *)

Definition set_constraints (self : CSP V D)
    (cs : gmap V (list (Constraint V D))) : CSP V D :=
  Build_CSP (variables self) (domains self) cs (low_mark self) (count self).

(** The loop over [constraint.variables].  The object is mutated in place,
    so the result carries the object as the loop left it, also when the
    loop ends in an exception. *)
Fixpoint add_constraint_loop (self : CSP V D) (constraint : Constraint V D)
    (vars : list V) : CSP V D * option exn :=
  match vars with
  | [] => (self, None)
  | variable :: rest =>
      if decide (variable ∈ variables self) then
        match constraints self !! variable with
        | None => (self, Some KeyError)
        | Some registered =>
            add_constraint_loop
              (set_constraints self
                 (<[variable := registered ++ [constraint]]> (constraints self)))
              constraint rest
        end
      else (self, Some UnknownVariableError)
  end.

Definition add_constraint (self : CSP V D) (constraint : Constraint V D)
    : CSP V D * option exn :=
  add_constraint_loop self constraint (Constraint.variables constraint).

(** *** [CSP.consistent] *)

Definition consistent (self : CSP V D) (variable : V)
    (assignment : Assignment) : exn + bool :=
  match constraints self !! variable with
  | None => inl KeyError
  | Some cs =>
      inr (forallb (λ constraint, Constraint.satisfied constraint assignment) cs)
  end.

(** *** [CSP.backtracking_search] *)

(** Truth value of an object that is a dictionary or [None]: only a
    dictionary with at least one key is true. *)
Definition truthy (unassigned : option Domains) : bool :=
  match unassigned with
  | None => false
  | Some d => negb (bool_decide (d = ∅))
  end.

Definition newline : string := String (Ascii.ascii_of_nat 10) EmptyString.

(** Lines 64-68, the progress report: at or below the low-water mark the
    counter advances, the number of variables left is printed and becomes
    the new mark. *)
Definition report (self : CSP V D) (nbr_left : nat)
    : CSP V D * list (nat * string) :=
  if decide (nbr_left ≤ low_mark self) then
    let count' := S (count self) in
    (Build_CSP (variables self) (domains self) (constraints self)
       nbr_left count',
     [(nbr_left, if decide (count' mod 20 = 0) then newline else " "%string)])
  else (self, []).

(** Lines 75-79: [next_unassigned] starts as [unassigned] and, when
    propagation is on, goes through [propagate] of every constraint of
    [self.constraints[next_var]], in list order, whatever the previous one
    returned. *)
Definition propagate_all (cs : list (Constraint V D)) (next_var : V)
    (value : D) (unassigned : option Domains) : option Domains :=
  fold_left
    (λ next_unassigned constraint,
       Constraint.propagate constraint next_var value next_unassigned)
    cs unassigned.

Definition next_unassigned_of (self : CSP V D) (cfg : Config) (next_var : V)
    (value : D) (unassigned : Domains) : exn + option Domains :=
  if propagate_constraints cfg then
    match constraints self !! next_var with
    | None => inl KeyError
    | Some cs => inr (propagate_all cs next_var value (Some unassigned))
    end
  else inr (Some unassigned).

(** Line 81, the test
    [next_unassigned and not check_constraints or self.consistent(...)]:
    [and] binds tighter than [or], and [consistent] is only called when the
    left operand is false. *)
Definition still_consistent (self : CSP V D) (cfg : Config) (next_var : V)
    (extended_assignment : Assignment) (next_unassigned : option Domains)
    : exn + bool :=
  if truthy next_unassigned && negb (check_constraints cfg) then inr true
  else consistent self next_var extended_assignment.

(** Running one generator and then, unless it raised, another one on the
    object the first one left. *)
Definition then_ (r1 : option (Run V D))
    (k : CSP V D → option (Run V D)) : option (Run V D) :=
  match r1 with
  | None => None
  | Some r1 =>
      match raised r1 with
      | Some _ => Some r1
      | None =>
          match k (final r1) with
          | None => None
          | Some r2 =>
              Some (Build_Run (yielded r1 ++ yielded r2) (raised r2)
                      (final r2) (printed r1 ++ printed r2))
          end
      end
  end.

(** What [print] wrote before a generator ran comes first in the output. *)
Definition printing (out : list (nat * string)) (r : option (Run V D))
    : option (Run V D) :=
  (λ r, Build_Run (yielded r) (raised r) (final r) (out ++ printed r)) <$> r.

Definition raise (self : CSP V D) (e : exn) : option (Run V D) :=
  Some (Build_Run [] (Some e) self []).

(** Lines 72-89, the loop over the values of the selected variable; [rec]
    is the recursive call of line 82. *)
Fixpoint for_each_value
    (rec : CSP V D → Assignment → option Domains → option (Run V D))
    (cfg : Config) (assignment : Assignment) (unassigned : Domains)
    (next_var : V) (values : list D) (self : CSP V D)
    : option (Run V D) :=
  match values with
  | [] => Some (Build_Run [] None self [])
  | value :: rest =>
      let extended_assignment := <[next_var := value]> assignment in
      match next_unassigned_of self cfg next_var value unassigned with
      | inl e => raise self e
      | inr next_unassigned =>
          match still_consistent self cfg next_var extended_assignment
                  next_unassigned with
          | inl e => raise self e
          | inr true =>
              then_ (rec self extended_assignment next_unassigned)
                (for_each_value rec cfg assignment unassigned next_var rest)
          | inr false =>
              for_each_value rec cfg assignment unassigned next_var rest self
          end
      end
  end.

(** The generator, run to exhaustion.  [fuel] bounds the number of nested
    calls: [None] is a recursion deeper than [fuel] allows. *)
Fixpoint backtracking_search (fuel : nat) (self : CSP V D)
    (assignment : Assignment) (unassigned : option Domains) (cfg : Config)
    : option (Run V D) :=
  match fuel with
  | 0 => None
  | S fuel =>
      match unassigned with
      | Some domains_left =>
          if decide (domains_left = ∅) then
            Some (Build_Run [assignment] None self [])
          else
            let '(self, out) := report self (size domains_left) in
            let '(next_var, next_var_domain) :=
              select_next_var (search_strategy cfg) (order_domain cfg)
                domains_left in
            printing out
              (for_each_value
                 (λ self a u, backtracking_search fuel self a u cfg)
                 cfg assignment domains_left next_var next_var_domain self)
      | None => Some (Build_Run [assignment] None self [])
      end
  end.

(** ** Objects and what registration establishes *)

(** The objects a program can hold: what the constructor returned, and what
    calls of [add_constraint] made of it (whether they raised or not). *)
Inductive constructed : CSP V D → Prop :=
  | constructed_init vs ds self :
      __init__ vs ds = inr self → constructed self
  | constructed_add self c :
      constructed self → constructed (add_constraint self c).1.

(** The objects whose constraints were all registered without error. *)
Inductive built : CSP V D → Prop :=
  | built_init vs ds self :
      __init__ vs ds = inr self → built self
  | built_add self c :
      built self → (add_constraint self c).2 = None →
      built (add_constraint self c).1.

(** What registration establishes: a constraint in the list of a variable
    names that variable, and is in the list of every variable it names. *)
Definition registered (self : CSP V D) : Prop :=
  ∀ v cs c, constraints self !! v = Some cs → c ∈ cs →
    v ∈ Constraint.variables c ∧
    ∀ w, w ∈ Constraint.variables c →
      ∃ cs', constraints self !! w = Some cs' ∧ c ∈ cs'.

(** Every variable of the object has a constraint list. *)
Definition has_constraint_lists (self : CSP V D) : Prop :=
  ∀ v, v ∈ variables self → is_Some (constraints self !! v).

(** How often [v] occurs in [vars]. *)
Definition occurrences (v : V) (vars : list V) : nat :=
  length (filter (λ w, w = v) vars).

(** ** What a search is observed to do *)

(** What a consumer of the generator observes: the solutions, in order, and
    the exception that ended the iteration, if any. *)
Definition trace (r : option (Run V D))
    : option (list (gmap V D) * option exn) :=
  (λ r, (yielded r, raised r)) <$> r.

(** A recursive call leaves the constraint lists alone. *)
Definition keeps_constraints
    (rec : CSP V D → gmap V D → option (gmap V (gset D)) → option (Run V D))
    : Prop :=
  ∀ self a u r, rec self a u = Some r → constraints (final r) = constraints self.

(** What a run may change of the object it started on: the low-water mark,
    which does not rise, and the counter, which advances by one for every
    item printed. *)
Definition only_marks_moved (self : CSP V D) (r : Run V D) : Prop :=
  variables (final r) = variables self ∧
  domains (final r) = domains self ∧
  constraints (final r) = constraints self ∧
  low_mark (final r) ≤ low_mark self ∧
  count (final r) = count self + length (printed r).

(** ** The preconditions of termination *)

(** Number of keys of what is passed as [unassigned]. *)
Definition len (unassigned : option (gmap V (gset D))) : nat :=
  match unassigned with
  | None => 0
  | Some u => size u
  end.

(** The selection policy answers with a key of the unassigned dictionary. *)
Definition selects_unassigned (cfg : Config) : Prop :=
  ∀ u, u ≠ ∅ →
    (select_next_var (search_strategy cfg) (order_domain cfg) u).1 ∈ dom u.

(** The dictionary a recursive call receives has keys of the current one
    only, and not the selected variable. *)
Definition recursion_excludes_selected (self : CSP V D) (cfg : Config) : Prop :=
  ∀ a u x nu,
    u ≠ ∅ →
    let selected := select_next_var (search_strategy cfg) (order_domain cfg) u in
    x ∈ selected.2 →
    next_unassigned_of self cfg selected.1 x u = inr (Some nu) →
    still_consistent self cfg selected.1 (<[selected.1:=x]> a) (Some nu) = inr true →
    dom nu ⊆ dom u ∖ {[selected.1]}.

(** ** How a solution comes to be yielded *)

(** [emits self cfg a u sol]: the call with assignment [a] and unassigned
    dictionary [u] yields [sol].  Either the call is at line 59, or the loop
    reaches a value for which line 81 holds and the recursive call of line 82
    yields [sol], which line 89 passes on. *)
Inductive emits (self : CSP V D) (cfg : Config)
    : gmap V D → option (gmap V (gset D)) → gmap V D → Prop :=
  | emits_here a u :
      truthy u = false → emits self cfg a u a
  | emits_below a u x nu sol :
      u ≠ ∅ →
      let selected := select_next_var (search_strategy cfg) (order_domain cfg) u in
      x ∈ selected.2 →
      next_unassigned_of self cfg selected.1 x u = inr nu →
      still_consistent self cfg selected.1 (<[selected.1:=x]> a) nu = inr true →
      emits self cfg (<[selected.1:=x]> a) nu sol →
      emits self cfg a (Some u) sol.

(** ** The contracts of the policy and of the constraints *)

(** [nu] has keys of [u] only, each with values it has in [u]. *)
Definition narrows (u nu : gmap V (gset D)) : Prop :=
  ∀ w d', nu !! w = Some d' → ∃ d, u !! w = Some d ∧ d' ⊆ d.

(** Section 3 of the specification: propagation only removes candidate
    values.  An absent snapshot stays absent. *)
Definition never_adds (c : Constraint V D) : Prop :=
  (∀ v x, Constraint.propagate c v x None = None) ∧
  ∀ v x u nu, Constraint.propagate c v x (Some u) = Some nu → narrows u nu.

(** Section 4.2 of the specification: the values to try are candidates of
    the selected variable in the unassigned dictionary. *)
Definition selects_candidates (cfg : Config) : Prop :=
  ∀ u, u ≠ ∅ →
    let selected := select_next_var (search_strategy cfg) (order_domain cfg) u in
    ∃ d, u !! selected.1 = Some d ∧ ∀ x, x ∈ selected.2 → x ∈ d.

(** The policy offers no value twice. *)
Definition offers_each_value_once (cfg : Config) : Prop :=
  ∀ u, u ≠ ∅ →
    NoDup (select_next_var (search_strategy cfg) (order_domain cfg) u).2.

(** The policy offers every candidate of the variable it selects. *)
Definition offers_all_candidates (cfg : Config) : Prop :=
  ∀ u, u ≠ ∅ →
    let selected := select_next_var (search_strategy cfg) (order_domain cfg) u in
    ∃ d, u !! selected.1 = Some d ∧ ∀ x, x ∈ d → x ∈ selected.2.

(** [s] gives every key of [u] one of its candidates. *)
Definition within (u : gmap V (gset D)) (s : gmap V D) : Prop :=
  ∀ w d, u !! w = Some d → ∃ y, s !! w = Some y ∧ y ∈ d.

(** A constraint that holds under an assignment holds under every part of
    it: variables not yet assigned are unconstrained. *)
Definition satisfied_by_parts (c : Constraint V D) : Prop :=
  ∀ a s, a ⊆ s → Constraint.satisfied c s = true →
    Constraint.satisfied c a = true.

(** [propagate] removes no value that an assignment satisfying the
    constraint uses: if [s] binds [v] to [x], satisfies [c] and takes the
    other unassigned variables to candidates, [propagate] answers with a
    snapshot of exactly those other variables in which the values of [s]
    are still candidates. *)
Definition propagate_keeps (c : Constraint V D) : Prop :=
  ∀ v x u s,
    s !! v = Some x → Constraint.satisfied c s = true →
    within (delete v u) s →
    ∃ nu, Constraint.propagate c v x (Some u) = Some nu ∧
          dom nu = dom u ∖ {[v]} ∧ within nu s.

(** A property of every constraint in a list of the object. *)
Definition every_constraint (self : CSP V D) (P : Constraint V D → Prop) : Prop :=
  ∀ v cs c, constraints self !! v = Some cs → c ∈ cs → P c.

(** ** The contract of the constraints (section 4.3 of the specification) *)




(** Section 3 of the specification: the variable just bound is no longer a
    key of the snapshot. *)
Definition takes_out (c : Constraint V D) : Prop :=
  ∀ v x u nu, Constraint.propagate c v x (Some u) = Some nu → nu !! v = None.


(** Every constraint of every list holds under [a]. *)
Definition all_satisfied (self : CSP V D) (a : gmap V D) : Prop :=
  every_constraint self (λ c, Constraint.satisfied c a = true).


End csp.

(** ** A concrete problem: two variables that must differ *)

Module Example.

(** Modelled from the spec: the selection policy of section 4.2, which is
    missing from the source ([csp.select_next_var]).  ["ff"] is fail-first,
    the unassigned variable with the smallest domain, ties broken by the
    order of [order]; any other strategy takes the first unassigned
    variable of [order].  The values are those of its domain, in ascending
    order if [order_domain] is set and in the order of [elements]
    otherwise. *)
Definition smaller_domain (u : gmap string (gset nat)) (best v : string)
    : string :=
  if decide (size (u !!! v) < size (u !!! best)) then v else best.

Definition select_next_var (order : list string) (strategy : string)
    (order_domain : bool) (u : gmap string (gset nat))
    : string * list nat :=
  let candidates := filter (λ v, is_Some (u !! v)) order in
  let next_var :=
    match candidates with
    | [] => default ""%string (fst <$> head (map_to_list u))
    | v :: vs =>
        if decide (strategy = "ff"%string)
        then fold_left (smaller_domain u) vs v
        else v
    end in
  let values := elements (u !!! next_var) in
  (next_var, if order_domain then merge_sort (≤) values else values).

(** Modelled from the spec: the binary inequality constraint of section
    4.3 (concrete constraints are missing from the source).  [satisfied]
    holds as long as one of the two variables is unassigned.  [propagate]
    takes the variable just bound out of the snapshot (section 3: a
    variable is assigned or unassigned, never both), removes the bound
    value from the domain of the other variable, and answers [None] if a
    domain of the new snapshot is empty. *)
Definition neq_satisfied (x y : string) (assignment : gmap string nat)
    : bool :=
  match assignment !! x, assignment !! y with
  | Some a, Some b => bool_decide (a ≠ b)
  | _, _ => true
  end.

Definition neq_propagate (x y : string) (changed_variable : string)
    (changed_value : nat) (unassigned : option (gmap string (gset nat)))
    : option (gmap string (gset nat)) :=
  match unassigned with
  | None => None
  | Some u =>
      let other :=
        if decide (changed_variable = x) then Some y
        else if decide (changed_variable = y) then Some x
        else None in
      let u' := delete changed_variable u in
      let u'' :=
        match other with
        | Some w => alter (λ d, d ∖ {[changed_value]}) w u'
        | None => u'
        end in
      if bool_decide (map_Forall (λ _ d, d ≠ ∅) u'') then Some u'' else None
  end.

Definition neq (x y : string) : Constraint string nat :=
  Constraint.Build [x; y] (neq_satisfied x y) (neq_propagate x y).

(** The two-variable problems of section 8 of the specification: variables
    [A] and [B], the constraint that they differ, and either the domain
    [{1}] for both (no solution) or [{1, 2}] for both (two solutions). *)
Definition A : string := "A".
Definition B : string := "B".

Definition differ : Constraint string nat := neq A B.

Definition both_one : gmap string (gset nat) :=
  {[ A := {[1]}; B := {[1]} ]}.

Definition one_or_two : gmap string (gset nat) :=
  {[ A := {[1; 2]}; B := {[1; 2]} ]}.

(** The object after [CSP([A, B], domains)] and [add_constraint(differ)]. *)
Definition problem (domains : gmap string (gset nat)) : CSP string nat :=
  Build_CSP [A; B] domains {[ A := [differ]; B := [differ] ]} 2 0.

(** The policy with the variables in the order of the list. *)
Definition policy : string → bool → gmap string (gset nat) → string * list nat :=
  select_next_var [A; B].

(** The object right after [CSP([A, B], domains)]. *)
Definition fresh (domains : gmap string (gset nat)) : CSP string nat :=
  Build_CSP [A; B] domains {[ A := []; B := [] ]} 2 0.

(** A constraint that names a variable the problems do not have. *)
Definition stray : Constraint string nat := neq A "Z".

(** The default configuration with [check_constraints] set. *)
Definition checking : Config :=
  {| search_strategy := "ff"; propagate_constraints := true;
     order_domain := true; check_constraints := true |}.

(** The configuration with neither propagation nor the consistency
    check. *)
Definition plain : Config :=
  {| search_strategy := "ff"; propagate_constraints := false;
     order_domain := true; check_constraints := false |}.

(** An unassigned dictionary whose only key is no variable of the
    problems. *)
Definition only_C : gmap string (gset nat) := {[ "C"%string := {[1]} ]}.

(** A domain dictionary in which [B] has no candidate. *)
Definition b_empty : gmap string (gset nat) :=
  {[ A := {[1; 2]}; B := ∅ ]}.




(** Modelled from the spec: the all-different constraint of section 4.3
    over a list of variables (concrete constraints are missing from the
    source).  [satisfied] holds as long as one of the variables is
    unassigned.  [propagate] takes the variable just bound out of the
    snapshot, removes the bound value from the domains of the other
    variables of the constraint, and answers [None] if a domain of the new
    snapshot is empty. *)
Definition all_different_satisfied (vs : list string)
    (assignment : gmap string nat) : bool :=
  match mapM (λ v, assignment !! v) vs with
  | Some values => bool_decide (NoDup values)
  | None => true
  end.

Definition all_different_propagate (vs : list string)
    (changed_variable : string) (changed_value : nat)
    (unassigned : option (gmap string (gset nat)))
    : option (gmap string (gset nat)) :=
  match unassigned with
  | None => None
  | Some u =>
      let u' := delete changed_variable u in
      let u'' :=
        if decide (changed_variable ∈ vs)
        then map_imap (λ w d, Some (if decide (w ∈ vs)
                                    then d ∖ {[changed_value]} else d)) u'
        else u' in
      if bool_decide (map_Forall (λ _ d, d ≠ ∅) u'') then Some u'' else None
  end.

Definition all_different (vs : list string) : Constraint string nat :=
  Constraint.Build vs (all_different_satisfied vs) (all_different_propagate vs).







End Example.

(** ** Constructed objects *)

Section construction.
Context {V D : Type} `{Countable V, Countable D}.

(** *** The constructor *)

Lemma init_loop_inl (ds : gmap V (gset D)) vs cs e :
  init_loop ds vs cs = inl e →
  e = MissingDomainError ∧ ∃ v, v ∈ vs ∧ ds !! v = None.
Proof.
  revert cs. induction vs as [|a vs IH]; intros cs Hl; simpl in Hl; [done|].
  destruct (ds !! a) eqn:Ha.
  - destruct (IH _ Hl) as (-> & v & Hv & Hd).
    split; [done|]. exists v. split; [by constructor|done].
  - injection Hl as <-. split; [done|]. exists a. split; [by left|done].
Qed.

Lemma init_loop_inr (ds : gmap V (gset D)) vs cs cs' :
  init_loop ds vs cs = inr cs' →
  (∀ v, v ∈ vs → is_Some (ds !! v)) ∧
  (∀ v, v ∈ vs → cs' !! v = Some []) ∧
  (∀ v, v ∉ vs → cs' !! v = cs !! v).
Proof.
  revert cs. induction vs as [|a vs IH]; intros cs Hl; simpl in Hl.
  - injection Hl as <-. split_and!; [by inversion 1|by inversion 1|done].
  - destruct (ds !! a) eqn:Ha; [|done].
    destruct (IH _ Hl) as (Hd & Hin & Hout). split_and!.
    + intros v [->|Hv]%elem_of_cons; [by rewrite Ha|by apply Hd].
    + intros v Hv. destruct (decide (v ∈ vs)) as [Hvs|Hvs]; [by apply Hin|].
      apply elem_of_cons in Hv as [->|?]; [|done].
      by rewrite (Hout _ Hvs), lookup_insert_eq.
    + intros v Hv. apply not_elem_of_cons in Hv as [Hne Hvs].
      by rewrite (Hout _ Hvs), lookup_insert_ne.
Qed.

Lemma init_loop_total (ds : gmap V (gset D)) vs
    (cs : gmap V (list (Constraint V D))) :
  (∀ v, v ∈ vs → is_Some (ds !! v)) → ∃ cs', init_loop ds vs cs = inr cs'.
Proof.
  intros Hd. destruct (init_loop ds vs cs) as [e|cs'] eqn:Hl; [|by eexists].
  apply init_loop_inl in Hl as (_ & v & Hv & Hnone).
  destruct (Hd v Hv) as [d Hsome]. congruence.
Qed.

Lemma init_fields vs ds (self : CSP V D) :
  __init__ vs ds = inr self →
  variables self = vs ∧ domains self = ds ∧
  low_mark self = length vs ∧ count self = 0 ∧
  (∀ v, v ∈ vs → is_Some (ds !! v)) ∧
  (∀ v, constraints self !! v = if decide (v ∈ vs) then Some [] else None).
Proof.
  unfold __init__. destruct (init_loop ds vs ∅) as [e|cs] eqn:Hl; [done|].
  intros [= <-]. simpl. apply init_loop_inr in Hl as (Hd & Hin & Hout).
  split_and!; try done.
  intros v. case_decide; [by apply Hin|]. by rewrite Hout, lookup_empty.
Qed.

(** C5.  The constructor raises the missing-domain [LookupError] exactly
    when some variable of the list has no entry in the domain dictionary; it
    returns an object exactly when every variable has one; and it raises
    nothing else. *)
Theorem init_raises_iff_domain_missing (vs : list V) (ds : gmap V (gset D)) :
  (__init__ vs ds = inl MissingDomainError ↔ ∃ v, v ∈ vs ∧ ds !! v = None) ∧
  ((∃ self, __init__ vs ds = inr self) ↔ ∀ v, v ∈ vs → is_Some (ds !! v)) ∧
  (∀ e, __init__ vs ds = inl e → e = MissingDomainError).
Proof.
  unfold __init__. destruct (init_loop ds vs ∅) as [e|cs] eqn:Hl.
  - apply init_loop_inl in Hl as (-> & v & Hv & Hnone). split_and!.
    + split; [by exists v|done].
    + split; [by intros [self ?]|]. intros Hd.
      destruct (Hd v Hv) as [d Hsome]. congruence.
    + by intros e [= <-].
  - apply init_loop_inr in Hl as (Hd & _). split_and!.
    + split; [done|]. intros (v & Hv & Hnone).
      destruct (Hd v Hv) as [d Hsome]. congruence.
    + split; [done|]. intros _. by eexists.
    + done.
Qed.

(** *** Registration *)

Lemma add_constraint_loop_known (self : CSP V D) c pre rest :
  has_constraint_lists self →
  (∀ v, v ∈ pre → v ∈ variables self) →
  ∃ self',
    add_constraint_loop self c (pre ++ rest) = add_constraint_loop self' c rest ∧
    variables self' = variables self ∧ domains self' = domains self ∧
    low_mark self' = low_mark self ∧ count self' = count self ∧
    has_constraint_lists self' ∧
    ∀ v, constraints self' !! v =
           (λ l, l ++ replicate (occurrences v pre) c) <$> constraints self !! v.
Proof.
  revert self. induction pre as [|a pre IH]; intros self Hwf Hpre.
  - exists self. split_and!; try done. intros v. simpl.
    destruct (constraints self !! v); simpl; [|done]. by rewrite app_nil_r.
  - assert (a ∈ variables self) as Ha by (apply Hpre; by left).
    destruct (Hwf a Ha) as [l Hl]. simpl.
    case_decide; [|done]. rewrite Hl.
    set (self1 := set_constraints self (<[a:=l ++ [c]]> (constraints self))).
    destruct (IH self1) as (self' & Heq & Hv & Hd & Hlm & Hc & Hwf' & Hlk).
    + intros v Hin. simpl. destruct (decide (v = a)) as [->|Hne].
      * rewrite lookup_insert_eq. by eexists.
      * rewrite lookup_insert_ne by done. by apply Hwf.
    + intros v Hin. apply Hpre. by right.
    + exists self'. split_and!; try done. intros v. rewrite Hlk. simpl.
      unfold occurrences. destruct (decide (v = a)) as [->|Hne].
      * rewrite lookup_insert_eq, Hl, filter_cons_True by done. simpl.
        by rewrite <-app_assoc.
      * rewrite lookup_insert_ne, filter_cons_False by done. done.
Qed.

Lemma constructed_has_constraint_lists (self : CSP V D) :
  constructed self → has_constraint_lists self.
Proof.
  induction 1 as [vs ds self Hi|self c _ IH].
  - apply init_fields in Hi as (Hvs & _ & _ & _ & _ & Hc).
    intros v Hv. rewrite Hvs in Hv. rewrite Hc, decide_True by done.
    by eexists.
  - unfold add_constraint.
    assert (Hgen : ∀ vars s, has_constraint_lists s →
              has_constraint_lists (add_constraint_loop s c vars).1).
    { induction vars as [|a vars IHv]; intros s Hs; simpl; [done|].
      case_decide; [|done]. destruct (constraints s !! a) eqn:Ha; [|done].
      apply IHv. intros v Hv. simpl. destruct (decide (v = a)) as [->|Hne].
      - rewrite lookup_insert_eq. by eexists.
      - rewrite lookup_insert_ne by done. by apply Hs. }
    by apply Hgen.
Qed.

(** Where the loop of [add_constraint] stops: after the longest prefix of
    known variables. *)
Lemma add_constraint_outcome (self : CSP V D) c :
  constructed self →
  (∀ v, v ∈ Constraint.variables c → v ∈ variables self) ∧
    (add_constraint self c).2 = None ∨
  (∃ pre z post,
     Constraint.variables c = pre ++ z :: post ∧
     (∀ v, v ∈ pre → v ∈ variables self) ∧ z ∉ variables self) ∧
    (add_constraint self c).2 = Some UnknownVariableError.
Proof.
  intros Hwf%constructed_has_constraint_lists. unfold add_constraint.
  assert (Hsplit : (∀ v, v ∈ Constraint.variables c → v ∈ variables self) ∨
            ∃ pre z post, Constraint.variables c = pre ++ z :: post ∧
              (∀ v, v ∈ pre → v ∈ variables self) ∧ z ∉ variables self).
  { induction (Constraint.variables c) as [|a vars IH].
    - left. by inversion 1.
    - destruct (decide (a ∈ variables self)) as [Ha|Ha].
      + destruct IH as [IH|(pre & z & post & -> & Hpre & Hz)].
        * left. by intros v [->|?]%elem_of_cons; [|apply IH].
        * right. exists (a :: pre), z, post. split_and!; [done| |done].
          by intros v [->|?]%elem_of_cons; [|apply Hpre].
      + right. exists [], a, vars. split_and!; [done| |done]. by inversion 1. }
  destruct Hsplit as [Hall|(pre & z & post & Hvars & Hpre & Hz)].
  - left. split; [done|].
    destruct (add_constraint_loop_known self c (Constraint.variables c) [] Hwf Hall)
      as (self' & Heq & _). rewrite app_nil_r in Heq. by rewrite Heq.
  - right. split; [by exists pre, z, post|]. rewrite Hvars.
    destruct (add_constraint_loop_known self c pre (z :: post) Hwf Hpre)
      as (self' & -> & Hv & _). simpl. by rewrite Hv, decide_False.
Qed.

(** C6.  On a constructed object, [add_constraint] raises the
    unknown-variable [LookupError] exactly when the constraint names a
    variable outside [self.variables]; otherwise it returns normally and the
    constraint is in the list of every variable it names. *)
Theorem add_constraint_raises_iff_unknown (self : CSP V D) (c : Constraint V D) :
  constructed self →
  ((add_constraint self c).2 = Some UnknownVariableError ↔
     ∃ v, v ∈ Constraint.variables c ∧ v ∉ variables self) ∧
  ((add_constraint self c).2 = None ↔
     ∀ v, v ∈ Constraint.variables c → v ∈ variables self) ∧
  ((add_constraint self c).2 = None →
     ∀ v, v ∈ Constraint.variables c →
       ∃ cs, constraints (add_constraint self c).1 !! v = Some cs ∧ c ∈ cs).
Proof.
  intros Hc.
  destruct (add_constraint_outcome self c Hc)
    as [[Hall He]|[(pre & z & post & Hvars & Hpre & Hz) He]].
  - split_and!.
    + rewrite He. split; [done|]. intros (v & Hv & Hnot). by apply Hall in Hv.
    + by rewrite He.
    + intros _ v Hv. unfold add_constraint.
      apply constructed_has_constraint_lists in Hc as Hwf.
      destruct (add_constraint_loop_known self c (Constraint.variables c) [] Hwf Hall)
        as (self' & Heq & _ & _ & _ & _ & _ & Hlk).
      rewrite app_nil_r in Heq. rewrite Heq. simpl. rewrite Hlk.
      destruct (Hwf v (Hall v Hv)) as [l ->]. simpl. eexists. split; [done|].
      apply elem_of_app. right. unfold occurrences.
      destruct (filter _ _) as [|w ws] eqn:Hf.
      * assert (v ∈ filter (λ w, w = v) (Constraint.variables c)) as Hin
          by by apply list_elem_of_filter.
        rewrite Hf in Hin. by inversion Hin.
      * simpl. by left.
  - assert (z ∈ Constraint.variables c) as Hzin.
    { rewrite Hvars. apply elem_of_app. right. by left. }
    split_and!.
    + rewrite He. split; [|done]. intros _. by exists z.
    + rewrite He. split; [done|]. intros Hall. by apply Hall in Hzin.
    + by rewrite He.
Qed.

(** C7, as the code has it.  When [add_constraint] raises, the constraint
    has already been appended to the list of every variable named before the
    first unknown one, once per occurrence; the lists of all other variables,
    and the other attributes of the object, are as before the call. *)
Theorem add_constraint_failure_keeps_prefix (self : CSP V D) (c : Constraint V D)
    (pre : list V) (z : V) (post : list V) :
  constructed self →
  Constraint.variables c = pre ++ z :: post →
  (∀ v, v ∈ pre → v ∈ variables self) →
  z ∉ variables self →
  (add_constraint self c).2 = Some UnknownVariableError ∧
  variables (add_constraint self c).1 = variables self ∧
  domains (add_constraint self c).1 = domains self ∧
  ∀ v, constraints (add_constraint self c).1 !! v =
         (λ l, l ++ replicate (occurrences v pre) c) <$> constraints self !! v.
Proof.
  intros Hwf%constructed_has_constraint_lists Hvars Hpre Hz.
  unfold add_constraint. rewrite Hvars.
  destruct (add_constraint_loop_known self c pre (z :: post) Hwf Hpre)
    as (self' & -> & Hv & Hd & _ & _ & _ & Hlk).
  simpl. rewrite Hv, decide_False by done. simpl. by rewrite <-Hv.
Qed.

Lemma occurrences_pos (v : V) vars : v ∈ vars ↔ 0 < occurrences v vars.
Proof.
  unfold occurrences. split.
  - intros Hv. assert (v ∈ filter (λ w, w = v) vars) as Hin
      by by apply list_elem_of_filter.
    destruct (filter _ vars); [by inversion Hin|simpl; lia].
  - intros Hpos. destruct (filter (λ w, w = v) vars) as [|w ws] eqn:Hf;
      [simpl in Hpos; lia|].
    assert (w ∈ filter (λ w, w = v) vars) as Hin by (rewrite Hf; by left).
    by apply list_elem_of_filter in Hin as [-> ?].
Qed.

Lemma built_constructed (self : CSP V D) : built self → constructed self.
Proof.
  induction 1 as [vs ds self Hi|self c _ IH _].
  - by eapply constructed_init.
  - by apply constructed_add.
Qed.

Lemma built_registered (self : CSP V D) : built self → registered self.
Proof.
  induction 1 as [vs ds self Hi|self c Hb IH He].
  - apply init_fields in Hi as (_ & _ & _ & _ & _ & Hc).
    intros v cs c Hv Hin. rewrite Hc in Hv. case_decide; [|done].
    injection Hv as <-. by inversion Hin.
  - pose proof (constructed_has_constraint_lists _ (built_constructed _ Hb)) as Hwf.
    destruct (add_constraint_outcome self c (built_constructed _ Hb))
      as [[Hall _]|[_ He']]; [|congruence].
    unfold add_constraint in *.
    destruct (add_constraint_loop_known self c (Constraint.variables c) [] Hwf Hall)
      as (self' & Heq & _ & _ & _ & _ & _ & Hlk).
    rewrite app_nil_r in Heq. rewrite Heq. simpl. clear Heq He.
    assert (Hkeep : ∀ w l c', constraints self !! w = Some l → c' ∈ l →
              ∃ l', constraints self' !! w = Some l' ∧ c' ∈ l').
    { intros w l c' Hw Hc'. rewrite Hlk, Hw. simpl. eexists. split; [done|].
      apply elem_of_app. by left. }
    intros v cs c' Hv Hin. rewrite Hlk in Hv.
    destruct (constraints self !! v) as [l|] eqn:Hl; [|done].
    injection Hv as <-. apply elem_of_app in Hin as [Hin|Hin].
    + destruct (IH v l c' Hl Hin) as [Hvc Hothers]. split; [done|].
      intros w Hw. destruct (Hothers w Hw) as (lw & Hlw & Hcw). by eapply Hkeep.
    + assert (0 < occurrences v (Constraint.variables c)) as Hpos.
      { destruct (occurrences v (Constraint.variables c)); [by inversion Hin|lia]. }
      apply elem_of_replicate in Hin as [-> _].
      split; [by apply occurrences_pos|].
      intros w Hw. rewrite Hlk. destruct (Hwf w (Hall w Hw)) as [lw ->].
      simpl. eexists. split; [done|]. apply elem_of_app. right.
      apply elem_of_replicate. split; [done|].
      apply occurrences_pos in Hw. lia.
Qed.

End construction.

(** ** The search: what does not depend on the progress marks *)

Section search.
Context {V D : Type} `{Countable V, Countable D}.
Variable select_next_var : string → bool → gmap V (gset D) → V * list D.

Abbreviation search := (backtracking_search select_next_var).

Lemma report_constraints (self : CSP V D) n :
  constraints (report self n).1 = constraints self.
Proof. unfold report. by case_decide. Qed.

Lemma next_unassigned_of_constraints (self self' : CSP V D) cfg v x u :
  constraints self' = constraints self →
  next_unassigned_of self' cfg v x u = next_unassigned_of self cfg v x u.
Proof. intros Hc. unfold next_unassigned_of. by rewrite Hc. Qed.

Lemma still_consistent_constraints (self self' : CSP V D) cfg v a nu :
  constraints self' = constraints self →
  still_consistent self' cfg v a nu = still_consistent self cfg v a nu.
Proof. intros Hc. unfold still_consistent, consistent. by rewrite Hc. Qed.

Lemma then_Some (r1 : option (Run V D)) k r :
  then_ r1 k = Some r →
  ∃ r1', r1 = Some r1' ∧
    ((raised r1' ≠ None ∧ r = r1') ∨
     (raised r1' = None ∧ ∃ r2, k (final r1') = Some r2 ∧
        r = Build_Run (yielded r1' ++ yielded r2) (raised r2) (final r2)
              (printed r1' ++ printed r2))).
Proof.
  unfold then_. destruct r1 as [r1'|]; [|done]. intros Hr. exists r1'.
  split; [done|]. destruct (raised r1') as [e|] eqn:He.
  - left. split; [done|]. congruence.
  - right. split; [done|]. destruct (k (final r1')) as [r2|]; [|done].
    exists r2. split; [done|]. congruence.
Qed.

Lemma printing_Some out (r : option (Run V D)) r' :
  printing out r = Some r' →
  ∃ r0, r = Some r0 ∧ yielded r' = yielded r0 ∧ raised r' = raised r0 ∧
        final r' = final r0.
Proof.
  destruct r as [r0|]; [|done]. intros [= <-]. by exists r0.
Qed.

Lemma printing_trace out (r : option (Run V D)) :
  trace (printing out r) = trace r.
Proof. by destruct r. Qed.

Lemma for_each_value_keeps_constraints rec cfg a u v vals (self : CSP V D) r :
  keeps_constraints rec →
  for_each_value rec cfg a u v vals self = Some r →
  constraints (final r) = constraints self.
Proof.
  intros Hrec. revert self r.
  induction vals as [|x vals IH]; intros self r Hr; simpl in Hr.
  - by injection Hr as <-.
  - destruct (next_unassigned_of self cfg v x u) as [e|nu]; [by injection Hr as <-|].
    destruct (still_consistent self cfg v (<[v:=x]> a) nu) as [e|[]];
      [by injection Hr as <-| |by apply IH].
    apply then_Some in Hr as (r1 & Hr1 & [[_ ->]|(_ & r2 & Hr2 & ->)]).
    + by apply Hrec in Hr1.
    + simpl. apply IH in Hr2. apply Hrec in Hr1. congruence.
Qed.

Lemma search_keeps_constraints fuel cfg :
  keeps_constraints (λ self a u, search fuel self a u cfg).
Proof.
  induction fuel as [|fuel IH]; intros self a u r Hr; simpl in Hr; [done|].
  destruct u as [u|]; [|by injection Hr as <-].
  case_decide; [by injection Hr as <-|].
  pose proof (report_constraints self (size u)) as Hrep.
  destruct (report self (size u)) as [self1 out].
  destruct (select_next_var _ _ u) as [v vals].
  apply printing_Some in Hr as (r0 & Hr0 & _ & _ & ->).
  simpl in *. apply for_each_value_keeps_constraints in Hr0; [|done]. congruence.
Qed.

Lemma then_trace (r1 r1' : option (Run V D)) k k' :
  trace r1' = trace r1 →
  (∀ s s', r1 = Some s → r1' = Some s' →
     trace (k' (final s')) = trace (k (final s))) →
  trace (then_ r1' k') = trace (then_ r1 k).
Proof.
  intros Ht Hk. destruct r1 as [s|], r1' as [s'|]; try done. simpl in Ht.
  injection Ht as Hy He. specialize (Hk s s' eq_refl eq_refl).
  unfold then_. rewrite He. destruct (raised s) eqn:Hs.
  { simpl. by rewrite Hy, He, Hs. }
  destruct (k (final s)) as [r2|], (k' (final s')) as [r2'|]; try done.
  simpl in *. injection Hk as Hy2 He2. by rewrite Hy, Hy2, He2.
Qed.

Lemma for_each_value_trace rec rec' cfg a u v vals (self self' : CSP V D) :
  keeps_constraints rec → keeps_constraints rec' →
  (∀ s s' a u, constraints s' = constraints s →
     trace (rec' s' a u) = trace (rec s a u)) →
  constraints self' = constraints self →
  trace (for_each_value rec' cfg a u v vals self') =
  trace (for_each_value rec cfg a u v vals self).
Proof.
  intros Hk Hk' Hrec. revert self self'.
  induction vals as [|x vals IH]; intros self self' Hc; simpl; [done|].
  rewrite (next_unassigned_of_constraints self self') by done.
  destruct (next_unassigned_of self cfg v x u) as [e|nu]; [done|].
  rewrite (still_consistent_constraints self self') by done.
  destruct (still_consistent self cfg v (<[v:=x]> a) nu) as [e|[]];
    [done| |by apply IH].
  apply then_trace; [by apply Hrec|]. intros s s' Hs Hs'. apply IH.
  apply Hk in Hs. apply Hk' in Hs'. congruence.
Qed.

(** C8.  The solutions a search yields, their order, and the exception that
    ends it (if any) are a function of the constraint lists, the initial
    assignment, the initial unassigned dictionary and the configuration: the
    attributes [low_mark] and [count], which a search leaves changed, have no
    part in them.  So a second search on the same object yields what the
    first one did. *)
Theorem search_deterministic (fuel : nat) (self self' : CSP V D)
    (a : gmap V D) (u : option (gmap V (gset D))) (cfg : Config) :
  constraints self' = constraints self →
  trace (search fuel self' a u cfg) = trace (search fuel self a u cfg).
Proof.
  revert self self' a u. induction fuel as [|fuel IH]; intros self self' a u Hc.
  { done. }
  simpl. destruct u as [u|]; [|done]. case_decide; [done|].
  pose proof (report_constraints self (size u)) as Hrep.
  pose proof (report_constraints self' (size u)) as Hrep'.
  destruct (report self (size u)) as [self1 out].
  destruct (report self' (size u)) as [self1' out'].
  destruct (select_next_var _ _ u) as [v vals]. simpl in *.
  rewrite !printing_trace.
  apply for_each_value_trace; try apply search_keeps_constraints.
  - intros s s' a' u' Hs. by apply IH.
  - congruence.
Qed.

(** ** Termination *)

Lemma for_each_value_mono rec rec' cfg a u v vals (self : CSP V D) r :
  (∀ s a' u' r', rec s a' u' = Some r' → rec' s a' u' = Some r') →
  for_each_value rec cfg a u v vals self = Some r →
  for_each_value rec' cfg a u v vals self = Some r.
Proof.
  intros Hrec. revert self r.
  induction vals as [|x vals IH]; intros self r Hr; simpl in *; [done|].
  destruct (next_unassigned_of self cfg v x u) as [e|nu]; [done|].
  destruct (still_consistent self cfg v (<[v:=x]> a) nu) as [e|[]];
    [done| |by apply IH].
  apply then_Some in Hr as (r1 & Hr1 & [[He ->]|(He & r2 & Hr2 & ->)]).
  - rewrite (Hrec _ _ _ _ Hr1). simpl. by destruct (raised r1).
  - rewrite (Hrec _ _ _ _ Hr1). simpl. rewrite He. by rewrite (IH _ _ Hr2).
Qed.

(** A run that fits in [fuel] nested calls is the same with more. *)
Lemma search_fuel_mono fuel fuel' (self : CSP V D) a u cfg r :
  fuel ≤ fuel' →
  search fuel self a u cfg = Some r → search fuel' self a u cfg = Some r.
Proof.
  revert fuel' self a u r.
  induction fuel as [|fuel IH]; intros fuel' self a u r Hle Hr; [done|].
  destruct fuel' as [|fuel']; [lia|]. simpl in *.
  destruct u as [u|]; [|done]. case_decide; [done|].
  destruct (report self (size u)) as [self1 out].
  destruct (select_next_var _ _ u) as [v vals].
  destruct (for_each_value _ cfg a u v vals self1) as [r0|] eqn:Hr0; [|done].
  erewrite for_each_value_mono; [done| |done].
  intros s a' u' r' Hr'. apply IH; [lia|done].
Qed.

Lemma for_each_value_total rec cfg a u v vals (self : CSP V D) :
  keeps_constraints rec →
  (∀ s x nu,
     constraints s = constraints self → x ∈ vals →
     next_unassigned_of s cfg v x u = inr nu →
     still_consistent s cfg v (<[v:=x]> a) nu = inr true →
     is_Some (rec s (<[v:=x]> a) nu)) →
  is_Some (for_each_value rec cfg a u v vals self).
Proof.
  intros Hk. revert self.
  induction vals as [|x vals IH]; intros self Hrec; simpl; [done|].
  destruct (next_unassigned_of self cfg v x u) as [e|nu] eqn:Hnu; [done|].
  destruct (still_consistent self cfg v (<[v:=x]> a) nu) as [e|[]] eqn:Hsc;
    [done| |].
  - destruct (Hrec self x nu) as [r1 Hr1]; [done|by left|done|done|].
    rewrite Hr1. simpl. destruct (raised r1); [done|].
    destruct (IH (final r1)) as [r2 ->]; [|done].
    intros s y nu' Hs Hy. apply Hrec; [|by right].
    rewrite Hs. by apply Hk in Hr1.
  - apply IH. intros s y nu' Hs Hy. apply Hrec; [done|by right].
Qed.

Lemma search_total (self : CSP V D) cfg :
  selects_unassigned select_next_var cfg → recursion_excludes_selected select_next_var self cfg →
  ∀ fuel s a u,
    constraints s = constraints self → len u < fuel →
    is_Some (search fuel s a u cfg).
Proof.
  intros Hsel Hexcl. induction fuel as [|fuel IH]; intros s a u Hs Hlen; [lia|].
  simpl. destruct u as [u|]; [|done]. case_decide as Hu; [done|].
  pose proof (report_constraints s (size u)) as Hrep.
  destruct (report s (size u)) as [s1 out]. simpl in Hrep.
  specialize (Hsel u Hu). pose proof (Hexcl a u) as Hex. clear Hexcl.
  destruct (select_next_var _ _ u) as [v vals]. simpl in *.
  assert (size u ≠ 0) as Hne by by apply map_size_non_empty_iff.
  destruct (for_each_value_total (λ s a u, search fuel s a u cfg) cfg a u v vals s1)
    as [r Hr]; [apply search_keeps_constraints| |by rewrite Hr].
  intros s' x nu Hs' Hx Hnu Hsc. apply IH; [congruence|].
  destruct nu as [nu|]; simpl; [|lia].
  assert (constraints s' = constraints self) as Hcs by congruence.
  rewrite (next_unassigned_of_constraints self s') in Hnu by done.
  rewrite (still_consistent_constraints self s') in Hsc by done.
  pose proof (Hex x nu Hu Hx Hnu Hsc) as Hdom.
  assert (dom nu ⊂ dom u) as Hsub.
  { split; [by etrans; [done|apply subseteq_difference_l]|].
    intros Hback. apply Hback, Hdom in Hsel.
    by apply elem_of_difference in Hsel as [_ []%not_elem_of_singleton]. }
  apply subset_size in Hsub. rewrite !size_dom in Hsub. lia.
Qed.

Lemma size_list_to_set_le (l : list V) : size (list_to_set l : gset V) ≤ length l.
Proof.
  induction l as [|x l IH].
  { by rewrite list_to_set_nil, size_empty. }
  rewrite list_to_set_cons, size_union_alt, size_singleton. simpl.
  assert (list_to_set l ∖ {[x]} ⊆ (list_to_set l : gset V)) as Hle
    by apply subseteq_difference_l, reflexivity.
  apply subseteq_size in Hle. lia.
Qed.

(** C9.  When the selection policy answers with a key of the unassigned
    dictionary and a recursive call never receives that key again (nor a
    key the current dictionary lacks), a search that starts from variables
    of the problem returns: at most [length (variables self)] calls are
    nested below the initial one, and no larger allowance changes the
    run. *)
Theorem search_terminates (self : CSP V D) (cfg : Config) (a : gmap V D)
    (u : gmap V (gset D)) :
  selects_unassigned select_next_var cfg →
  recursion_excludes_selected select_next_var self cfg →
  dom u ⊆ list_to_set (variables self) →
  ∃ r, ∀ fuel, length (variables self) < fuel →
         search fuel self a (Some u) cfg = Some r.
Proof.
  intros Hsel Hexcl Hdom.
  assert (size u ≤ length (variables self)) as Hsize.
  { rewrite <-size_dom. etrans; [by apply subseteq_size|].
    apply size_list_to_set_le. }
  destruct (search_total self cfg Hsel Hexcl (S (length (variables self)))
              self a (Some u)) as [r Hr]; [done|simpl; lia|].
  exists r. intros fuel Hfuel. eapply search_fuel_mono; [|done]. lia.
Qed.

(** ** How a solution comes to be yielded *)

Lemma for_each_value_yielded rec cfg a u v vals (self : CSP V D) r sol :
  keeps_constraints rec →
  for_each_value rec cfg a u v vals self = Some r →
  sol ∈ yielded r →
  ∃ s x nu r',
    constraints s = constraints self ∧ x ∈ vals ∧
    next_unassigned_of self cfg v x u = inr nu ∧
    still_consistent self cfg v (<[v:=x]> a) nu = inr true ∧
    rec s (<[v:=x]> a) nu = Some r' ∧ sol ∈ yielded r'.
Proof.
  intros Hk. revert self r.
  induction vals as [|x vals IH]; intros self r Hr Hsol; simpl in Hr.
  { injection Hr as <-. by inversion Hsol. }
  destruct (next_unassigned_of self cfg v x u) as [e|nu] eqn:Hnu.
  { injection Hr as <-. by inversion Hsol. }
  destruct (still_consistent self cfg v (<[v:=x]> a) nu) as [e|[]] eqn:Hsc.
  - injection Hr as <-. by inversion Hsol.
  - assert (Hhere : ∀ r1, rec self (<[v:=x]> a) nu = Some r1 →
              sol ∈ yielded r1 →
              ∃ s x0 nu0 r', constraints s = constraints self ∧ x0 ∈ x :: vals ∧
                next_unassigned_of self cfg v x0 u = inr nu0 ∧
                still_consistent self cfg v (<[v:=x0]> a) nu0 = inr true ∧
                rec s (<[v:=x0]> a) nu0 = Some r' ∧ sol ∈ yielded r').
    { intros r1 Hr1 Hin. exists self, x, nu, r1. split_and!; try done. by left. }
    apply then_Some in Hr as (r1 & Hr1 & [[_ ->]|(_ & r2 & Hr2 & ->)]);
      [by eapply Hhere|].
    simpl in Hsol. apply elem_of_app in Hsol as [Hsol|Hsol]; [by eapply Hhere|].
    destruct (IH _ _ Hr2 Hsol) as (s & y & nu' & r' & Hs & Hy & Hnu' & Hsc' & Hrec & Hin).
    assert (constraints (final r1) = constraints self) as Hc by by apply Hk in Hr1.
    exists s, y, nu', r'. split_and!; try done.
    + congruence.
    + by right.
    + by rewrite <-(next_unassigned_of_constraints self (final r1)).
    + by rewrite <-(still_consistent_constraints self (final r1)).
  - destruct (IH _ _ Hr Hsol)
      as (s & y & nu' & r' & Hs & Hy & Hnu' & Hsc' & Hrec & Hin).
    exists s, y, nu', r'. split_and!; try done. by right.
Qed.

(** Every solution a run yields is one [emits] derives. *)
Lemma search_emits (self : CSP V D) cfg fuel s a u r sol :
  constraints s = constraints self →
  search fuel s a u cfg = Some r → sol ∈ yielded r →
  emits select_next_var self cfg a u sol.
Proof.
  revert s a u r. induction fuel as [|fuel IH]; intros s a u r Hs Hr Hsol; [done|].
  simpl in Hr. destruct u as [u|].
  2:{ injection Hr as <-. apply list_elem_of_singleton in Hsol as ->.
      by apply emits_here. }
  case_decide as Hu.
  { injection Hr as <-. apply list_elem_of_singleton in Hsol as ->.
    apply emits_here. simpl. by rewrite bool_decide_true. }
  pose proof (report_constraints s (size u)) as Hrep.
  destruct (report s (size u)) as [s1 out]. simpl in Hrep.
  destruct (select_next_var _ _ u) as [v vals] eqn:Hsel.
  apply printing_Some in Hr as (r0 & Hr0 & Hy & _). rewrite Hy in Hsol.
  eapply for_each_value_yielded in Hr0
    as (s' & x & nu & r' & Hs' & Hx & Hnu & Hsc & Hrec & Hin);
    [|apply search_keeps_constraints|done].
  assert (constraints s1 = constraints self) as Hs1 by congruence.
  rewrite (next_unassigned_of_constraints self s1) in Hnu by done.
  rewrite (still_consistent_constraints self s1) in Hsc by done.
  eapply (emits_below select_next_var self cfg a u x nu); rewrite ?Hsel; simpl; try done.
  eapply IH; [|done..]. congruence.
Qed.

(** ** Where the values of a solution come from *)

Lemma narrows_refl (u : gmap V (gset D)) : narrows u u.
Proof. intros w d Hw. by exists d. Qed.

Lemma narrows_trans (u1 u2 u3 : gmap V (gset D)) :
  narrows u1 u2 → narrows u2 u3 → narrows u1 u3.
Proof.
  intros H12 H23 w d3 Hw. destruct (H23 _ _ Hw) as (d2 & Hw2 & Hsub).
  destruct (H12 _ _ Hw2) as (d1 & Hw1 & Hsub'). exists d1.
  split; [done|]. by etrans.
Qed.

Lemma propagate_all_cons (c : Constraint V D) cs v x u :
  propagate_all (c :: cs) v x u =
  propagate_all cs v x (Constraint.propagate c v x u).
Proof. done. Qed.

Lemma propagate_all_None (cs : list (Constraint V D)) v x :
  (∀ c, c ∈ cs → never_adds c) → propagate_all cs v x None = None.
Proof.
  induction cs as [|c cs IH]; intros Hcs; [done|].
  rewrite propagate_all_cons. destruct (Hcs c) as [-> _]; [by left|].
  apply IH. intros c' Hc'. apply Hcs. by right.
Qed.

Lemma propagate_all_narrows (cs : list (Constraint V D)) v x u nu :
  (∀ c, c ∈ cs → never_adds c) →
  propagate_all cs v x (Some u) = Some nu → narrows u nu.
Proof.
  revert u. induction cs as [|c cs IH]; intros u Hcs Hnu.
  - injection Hnu as <-. apply narrows_refl.
  - rewrite propagate_all_cons in Hnu.
    assert (∀ c', c' ∈ cs → never_adds c') as Hcs' by (intros ??; apply Hcs; by right).
    destruct (Constraint.propagate c v x (Some u)) as [u1|] eqn:Hc.
    + eapply narrows_trans; [|by eapply IH].
      destruct (Hcs c) as [_ Hn]; [by left|]. by eapply Hn.
    + by rewrite propagate_all_None in Hnu.
Qed.

Lemma next_unassigned_narrows (self : CSP V D) cfg v x u nu :
  every_constraint self never_adds →
  next_unassigned_of self cfg v x u = inr (Some nu) → narrows u nu.
Proof.
  intros Hall. unfold next_unassigned_of.
  destruct (propagate_constraints cfg).
  - destruct (constraints self !! v) as [cs|] eqn:Hcs; [|done].
    intros [= Hnu]. eapply propagate_all_narrows; [|done].
    intros c Hc. by eapply Hall.
  - intros [= <-]. apply narrows_refl.
Qed.

(** Every binding of a solution is a binding of the initial assignment or
    takes its value from the initial unassigned dictionary. *)
Lemma emits_values (self : CSP V D) cfg a u sol :
  selects_candidates select_next_var cfg → every_constraint self never_adds →
  emits select_next_var self cfg a u sol →
  ∀ w y, sol !! w = Some y →
    a !! w = Some y ∨ ∃ u0 d, u = Some u0 ∧ u0 !! w = Some d ∧ y ∈ d.
Proof.
  intros Hsel Hall. induction 1 as [a u _|a u x nu sol Hu selected Hx Hnu _ _ IH];
    intros w y Hw; [by left|].
  destruct (Hsel u Hu) as (d & Hd & Hvals). fold selected in Hd, Hvals.
  destruct (IH w y Hw) as [Ha|(u1 & d1 & -> & Hw1 & Hy)].
  - destruct (decide (w = selected.1)) as [->|Hne].
    + rewrite lookup_insert_eq in Ha. injection Ha as <-.
      right. exists u, d. split_and!; [done..|]. by apply Hvals.
    + rewrite lookup_insert_ne in Ha by done. by left.
  - apply next_unassigned_narrows in Hnu; [|done].
    destruct (Hnu _ _ Hw1) as (d0 & Hw0 & Hsub).
    right. exists u, d0. split_and!; [done..|]. by apply Hsub.
Qed.

(** Every value of a solution of a search from the empty assignment is a
    candidate of its variable in the initial unassigned dictionary, and a
    solution, a dictionary, has one value per variable at most. *)
Theorem solution_values_from_domains (self : CSP V D) (cfg : Config)
    (fuel : nat) (u : gmap V (gset D)) (r : Run V D) (sol : gmap V D)
    (w : V) (y : D) :
  selects_candidates select_next_var cfg →
  every_constraint self never_adds →
  search fuel self ∅ (Some u) cfg = Some r →
  sol ∈ yielded r →
  sol !! w = Some y →
  ∃ d, u !! w = Some d ∧ y ∈ d.
Proof.
  intros Hsel Hall Hr Hsol Hw.
  eapply search_emits in Hsol; [|done..].
  destruct (emits_values self cfg ∅ (Some u) sol Hsel Hall Hsol w y Hw)
    as [Hempty|(u0 & d & [= <-] & Hd & Hin)].
  - by rewrite lookup_empty in Hempty.
  - by exists d.
Qed.

(** C10.  The constructor accepts a domain dictionary in which a variable
    has the empty set: it looks only for the key.  A search from that
    dictionary and the empty assignment then yields nothing that binds the
    variable, provided the policy offers candidates of the dictionary and
    propagation adds none. *)
Theorem empty_domain_accepted_never_assigned (vs : list V)
    (ds : gmap V (gset D)) (v : V) :
  ds !! v = Some ∅ →
  (∀ w, w ∈ vs → is_Some (ds !! w)) →
  (∃ self, __init__ vs ds = inr self) ∧
  ∀ self cfg fuel r sol,
    selects_candidates select_next_var cfg → every_constraint self never_adds →
    search fuel self ∅ (Some ds) cfg = Some r →
    sol ∈ yielded r → sol !! v = None.
Proof.
  intros Hv Hds. split.
  { unfold __init__. destruct (init_loop_total ds vs ∅ Hds) as [cs ->].
    by eexists. }
  intros self cfg fuel r sol Hsel Hall Hr Hsol.
  eapply search_emits in Hsol; [|done..].
  destruct (sol !! v) as [y|] eqn:Hy; [|done].
  destruct (emits_values self cfg ∅ (Some ds) sol Hsel Hall Hsol v y Hy)
    as [Hempty|(u0 & d & [= <-] & Hd & Hin)].
  - by rewrite lookup_empty in Hempty.
  - rewrite Hv in Hd. injection Hd as <-. by apply not_elem_of_empty in Hin.
Qed.

(** ** Consistency of the solutions *)

Lemma narrows_None (u nu : gmap V (gset D)) w :
  narrows u nu → u !! w = None → nu !! w = None.
Proof.
  intros Hn Hw. destruct (nu !! w) as [d'|] eqn:Hnu; [|done].
  destruct (Hn _ _ Hnu) as (d & Hd & _). congruence.
Qed.

(** In a chain that ends with a snapshot, every constraint of the chain
    received one and returned one, which the end of the chain narrows. *)
Lemma propagate_all_through (cs : list (Constraint V D)) c v x u nu :
  (∀ c', c' ∈ cs → never_adds c') → c ∈ cs →
  propagate_all cs v x (Some u) = Some nu →
  ∃ u_in u_out,
    Constraint.propagate c v x (Some u_in) = Some u_out ∧ narrows u_out nu.
Proof.
  revert u. induction cs as [|c0 cs IH]; intros u Hcs Hc Hnu; [by inversion Hc|].
  rewrite propagate_all_cons in Hnu.
  assert (∀ c', c' ∈ cs → never_adds c') as Hcs' by (intros ??; apply Hcs; by right).
  destruct (Constraint.propagate c0 v x (Some u)) as [u1|] eqn:Hc0;
    [|by rewrite propagate_all_None in Hnu].
  apply elem_of_cons in Hc as [->|Hc].
  - exists u, u1. split; [done|]. by eapply propagate_all_narrows.
  - by eapply IH.
Qed.






(** Without propagation the unassigned dictionary never changes: a call
    that receives a non-empty one yields nothing. *)
Lemma emits_without_propagation (self : CSP V D) cfg a u sol :
  propagate_constraints cfg = false →
  emits select_next_var self cfg a u sol → truthy u = false.
Proof.
  intros Hprop.
  induction 1 as [a u Hfalsy|a u x nu sol Hu selected Hx Hnu Hsc _ IH]; [done|].
  unfold next_unassigned_of in Hnu. rewrite Hprop in Hnu. injection Hnu as <-.
  done.
Qed.



End search.

(** ** The object after construction and registration *)

Section object_state.
Context {V D : Type} `{Countable V, Countable D}.

Lemma add_constraint_loop_keys (c : Constraint V D) vars (self : CSP V D) :
  dom (constraints (add_constraint_loop self c vars).1) = dom (constraints self) ∧
  variables (add_constraint_loop self c vars).1 = variables self.
Proof.
  revert self. induction vars as [|a vars IH]; intros self; simpl; [done|].
  case_decide; [|done]. destruct (constraints self !! a) as [l|] eqn:Hl; [|done].
  destruct (IH (set_constraints self (<[a:=l ++ [c]]> (constraints self))))
    as [Hdom Hvars].
  rewrite Hdom, Hvars. simpl. split; [|done].
  rewrite dom_insert_L. apply (elem_of_dom_2 (D:=gset V)) in Hl.
  apply subseteq_union_1_L. by apply singleton_subseteq_l.
Qed.

Lemma constructed_keys (self : CSP V D) :
  constructed self → dom (constraints self) = list_to_set (variables self).
Proof.
  induction 1 as [vs ds self Hi|self c _ IH].
  - apply init_fields in Hi as (-> & _ & _ & _ & _ & Hc).
    apply set_eq. intros v. rewrite elem_of_dom, Hc, elem_of_list_to_set.
    case_decide; [by split|]. split; [by intros [? ?]|done].
  - unfold add_constraint.
    destruct (add_constraint_loop_keys c (Constraint.variables c) self)
      as [-> ->]. done.
Qed.

(** What the constructor leaves when it succeeds: the two arguments as
    they are, a low-water mark of [len(variables)], a counter of zero, and a
    constraint dictionary whose keys are the variables, each with the empty
    list. *)
Theorem init_postcondition (vs : list V) (ds : gmap V (gset D))
    (self : CSP V D) :
  __init__ vs ds = inr self →
  variables self = vs ∧ domains self = ds ∧
  low_mark self = length vs ∧ count self = 0 ∧
  dom (constraints self) = list_to_set vs ∧
  ∀ v, v ∈ vs → constraints self !! v = Some [].
Proof.
  intros Hi. pose proof (constructed_keys self (constructed_init _ _ _ Hi)) as Hk.
  apply init_fields in Hi as (Hvs & Hds & Hlm & Hcnt & _ & Hc).
  rewrite Hvs in Hk. split_and!; try done.
  intros v Hv. by rewrite Hc, decide_True.
Qed.

(** A registration that succeeds appends the constraint to the list of
    each variable it names, once per occurrence in [constraint.variables]
    (a variable named twice gets it twice), after the constraints that were
    there; no other list and no other attribute changes. *)
Theorem add_constraint_success_appends (self : CSP V D) (c : Constraint V D) :
  constructed self →
  (∀ v, v ∈ Constraint.variables c → v ∈ variables self) →
  (add_constraint self c).2 = None ∧
  variables (add_constraint self c).1 = variables self ∧
  domains (add_constraint self c).1 = domains self ∧
  low_mark (add_constraint self c).1 = low_mark self ∧
  count (add_constraint self c).1 = count self ∧
  ∀ v, constraints (add_constraint self c).1 !! v =
         (λ l, l ++ replicate (occurrences v (Constraint.variables c)) c) <$>
           constraints self !! v.
Proof.
  intros Hwf%constructed_has_constraint_lists Hall. unfold add_constraint.
  destruct (add_constraint_loop_known self c (Constraint.variables c) [] Hwf Hall)
    as (self' & Heq & Hv & Hd & Hlm & Hcnt & _ & Hlk).
  rewrite app_nil_r in Heq. by rewrite Heq.
Qed.

(** After the constructor and any number of successful registrations, the
    keys of the constraint dictionary are the variables, and a constraint
    found in the list of a variable names that variable, names variables of
    the object only, and is in the list of each of them. *)
Theorem registration_invariant (self : CSP V D) :
  built self →
  dom (constraints self) = list_to_set (variables self) ∧
  ∀ v cs c, constraints self !! v = Some cs → c ∈ cs →
    v ∈ variables self ∧ v ∈ Constraint.variables c ∧
    ∀ w, w ∈ Constraint.variables c →
      w ∈ variables self ∧ ∃ cs', constraints self !! w = Some cs' ∧ c ∈ cs'.
Proof.
  intros Hb.
  pose proof (constructed_keys self (built_constructed _ Hb)) as Hk.
  split; [done|]. intros v cs c Hv Hc.
  assert (∀ w l, constraints self !! w = Some l → w ∈ variables self) as Hvar.
  { intros w l Hw. apply (elem_of_dom_2 (D:=gset V)) in Hw.
    rewrite Hk in Hw. by apply elem_of_list_to_set in Hw. }
  destruct (built_registered self Hb v cs c Hv Hc) as [Hvc Hothers].
  split_and!; [by eapply Hvar|done|].
  intros w Hw. destruct (Hothers w Hw) as (cs' & Hcs' & Hin).
  split; [by eapply Hvar|by exists cs'].
Qed.

(** [consistent] on an object made by the constructor and registrations:
    it raises [KeyError] exactly for a variable that is not one of the
    object's, and otherwise answers whether every constraint of the
    variable's list is satisfied. *)
Theorem consistent_raises_iff_unknown (self : CSP V D) (v : V) (a : gmap V D) :
  constructed self →
  (consistent self v a = inl KeyError ↔ v ∉ variables self) ∧
  (v ∈ variables self →
     ∃ cs, constraints self !! v = Some cs ∧
       ∀ b, consistent self v a = inr b ↔
            (b = true ↔ ∀ c, c ∈ cs → Constraint.satisfied c a = true)).
Proof.
  intros Hc. pose proof (constructed_keys self Hc) as Hk.
  assert (v ∈ variables self ↔ is_Some (constraints self !! v)) as Hiff.
  { by rewrite <-elem_of_dom, Hk, elem_of_list_to_set. }
  unfold consistent. split.
  - destruct (constraints self !! v) as [cs|] eqn:Hcs.
    + split; [done|]. intros Hv. destruct Hv. apply Hiff. by eexists.
    + split; [|done]. intros _ Hv. apply Hiff in Hv as [? ?]. done.
  - intros [cs Hcs]%Hiff. rewrite Hcs. exists cs. split; [done|].
    intros b. assert (forallb (λ c, Constraint.satisfied c a) cs = true ↔
                      ∀ c, c ∈ cs → Constraint.satisfied c a = true) as Hall.
    { rewrite forallb_forall. by setoid_rewrite list_elem_of_In. }
    split.
    + intros [= <-]. by rewrite Hall.
    + intros Hb. f_equal. destruct b.
      * by apply Hall, Hb.
      * destruct (forallb _ cs) eqn:Hf; [|done].
        symmetry. apply Hb. by apply Hall.
Qed.

End object_state.

(** ** What a search does to the object, and when it raises *)

Section search_effects.
Context {V D : Type} `{Countable V, Countable D}.
Variable select_next_var : string → bool → gmap V (gset D) → V * list D.

Abbreviation search := (backtracking_search select_next_var).

Lemma search_unfold fuel (self : CSP V D) a u cfg :
  u ≠ ∅ →
  search (S fuel) self a (Some u) cfg =
  printing (report self (size u)).2
    (for_each_value (λ s a' u', search fuel s a' u' cfg) cfg a u
       (select_next_var (search_strategy cfg) (order_domain cfg) u).1
       (select_next_var (search_strategy cfg) (order_domain cfg) u).2
       (report self (size u)).1).
Proof.
  intros Hu. cbn [backtracking_search]. rewrite decide_False by done.
  destruct (report self (size u)) as [self1 out].
  by destruct (select_next_var _ _ u) as [v vals].
Qed.

Lemma only_marks_moved_refl (self : CSP V D) ys e :
  only_marks_moved self (Build_Run ys e self []).
Proof. unfold only_marks_moved. simpl. split_and!; try done; lia. Qed.

Lemma only_marks_moved_then (self : CSP V D) r1 k r :
  only_marks_moved self r1 →
  (∀ r2, k (final r1) = Some r2 → only_marks_moved (final r1) r2) →
  then_ (Some r1) k = Some r → only_marks_moved self r.
Proof.
  intros H1 H2 Hr.
  apply then_Some in Hr as (r1' & [= <-] & [[_ ->]|(_ & r2 & Hr2 & ->)]); [done|].
  destruct H1 as (Hv & Hd & Hc & Hlm & Hcnt).
  destruct (H2 r2 Hr2) as (Hv2 & Hd2 & Hc2 & Hlm2 & Hcnt2).
  unfold only_marks_moved. simpl. rewrite length_app.
  split_and!; try congruence; lia.
Qed.

Lemma for_each_value_only_marks rec cfg a u v vals (self : CSP V D) r :
  (∀ s a' u' r', rec s a' u' = Some r' → only_marks_moved s r') →
  for_each_value rec cfg a u v vals self = Some r →
  only_marks_moved self r.
Proof.
  intros Hrec. revert self r.
  induction vals as [|x vals IH]; intros self r Hr; simpl in Hr.
  { injection Hr as <-. apply only_marks_moved_refl. }
  destruct (next_unassigned_of self cfg v x u) as [e|nu].
  { injection Hr as <-. apply only_marks_moved_refl. }
  destruct (still_consistent self cfg v (<[v:=x]> a) nu) as [e|[]];
    [injection Hr as <-; apply only_marks_moved_refl| |by apply IH].
  destruct (rec self (<[v:=x]> a) nu) as [r1|] eqn:Hr1; [|done].
  eapply only_marks_moved_then; [by eapply Hrec| |done].
  intros r2 Hr2. by apply IH.
Qed.

(** A search changes nothing of the problem: the variables, the domains
    and the constraint lists of the object are afterwards what they were.
    Of the two progress attributes, [low_mark] has not risen and [count]
    has advanced by the number of items printed. *)
Theorem search_only_moves_marks (fuel : nat) (self : CSP V D) (a : gmap V D)
    (u : option (gmap V (gset D))) (cfg : Config) (r : Run V D) :
  search fuel self a u cfg = Some r →
  variables (final r) = variables self ∧
  domains (final r) = domains self ∧
  constraints (final r) = constraints self ∧
  low_mark (final r) ≤ low_mark self ∧
  count (final r) = count self + length (printed r).
Proof.
  change (search fuel self a u cfg = Some r → only_marks_moved self r).
  revert self a u r. induction fuel as [|fuel IH]; intros self a u r Hr; [done|].
  destruct u as [u|]; [|injection Hr as <-; apply only_marks_moved_refl].
  destruct (decide (u = ∅)) as [->|Hu].
  { injection Hr as <-. apply only_marks_moved_refl. }
  rewrite search_unfold in Hr by done.
  destruct (for_each_value _ cfg a u _ _ _) as [r0|] eqn:Hr0; [|done].
  injection Hr as <-.
  apply for_each_value_only_marks in Hr0; [|by intros; eapply IH].
  destruct Hr0 as (Hv & Hd & Hc & Hlm & Hcnt).
  unfold only_marks_moved, report in *. simpl. rewrite length_app.
  case_decide; simpl in *; split_and!; try done; lia.
Qed.

Lemma for_each_value_cons rec cfg a u v x rest (self : CSP V D) :
  for_each_value rec cfg a u v (x :: rest) self =
  match next_unassigned_of self cfg v x u with
  | inl e => raise self e
  | inr next_unassigned =>
      match still_consistent self cfg v (<[v:=x]> a) next_unassigned with
      | inl e => raise self e
      | inr true =>
          then_ (rec self (<[v:=x]> a) next_unassigned)
            (for_each_value rec cfg a u v rest)
      | inr false => for_each_value rec cfg a u v rest self
      end
  end.
Proof. done. Qed.

Lemma truthy_nonempty (u : gmap V (gset D)) : u ≠ ∅ → truthy (Some u) = true.
Proof. intros Hu. simpl. by rewrite bool_decide_false. Qed.

(** A selected variable without a constraint list: when propagation or
    the consistency check is on, the subscript [self.constraints[next_var]]
    (line 77, or line 96 through line 81) fails for the first value tried,
    and the search ends in [KeyError] without a solution.  This is what a
    key of the unassigned dictionary that is no variable of the object
    leads to. *)
Theorem unknown_selected_variable_raises (fuel : nat) (self : CSP V D)
    (a : gmap V D) (u : gmap V (gset D)) (cfg : Config) (v : V) (x : D)
    (rest : list D) :
  u ≠ ∅ →
  select_next_var (search_strategy cfg) (order_domain cfg) u = (v, x :: rest) →
  constraints self !! v = None →
  propagate_constraints cfg = true ∨ check_constraints cfg = true →
  ∃ r, search (S fuel) self a (Some u) cfg = Some r ∧
       yielded r = [] ∧ raised r = Some KeyError.
Proof.
  intros Hu Hsel Hv Hcfg. rewrite search_unfold, Hsel by done.
  cbn [fst snd]. rewrite for_each_value_cons.
  unfold next_unassigned_of, still_consistent, consistent.
  rewrite (report_constraints self (size u)), Hv.
  destruct (propagate_constraints cfg); [by eexists|].
  destruct Hcfg as [?|Hcheck]; [done|].
  rewrite Hcheck, (truthy_nonempty u Hu). by eexists.
Qed.

(** Without propagation and without the consistency check nothing ever
    takes a variable out of the unassigned dictionary (line 75 passes it on
    as it is): from a non-empty dictionary for which the policy offers a
    value, the recursion goes deeper than any allowance. *)
Theorem search_without_propagation_or_check_diverges (cfg : Config)
    (u : gmap V (gset D)) :
  propagate_constraints cfg = false →
  check_constraints cfg = false →
  u ≠ ∅ →
  (select_next_var (search_strategy cfg) (order_domain cfg) u).2 ≠ [] →
  ∀ fuel (self : CSP V D) a, search fuel self a (Some u) cfg = None.
Proof.
  intros Hprop Hcheck Hu Hvals fuel.
  induction fuel as [|fuel IH]; intros self a; [done|].
  rewrite search_unfold by done.
  destruct (select_next_var _ _ u) as [v [|x rest]]; [done|].
  cbn [fst snd]. rewrite for_each_value_cons.
  unfold next_unassigned_of, still_consistent.
  rewrite Hprop, Hcheck, (truthy_nonempty u Hu). cbn [negb andb].
  by rewrite IH.
Qed.

(** Without propagation a search from a non-empty dictionary yields no
    solution, whatever the consistency check says: the dictionary reaches
    the recursive calls unchanged, and only a call on an empty or absent
    one yields. *)
Theorem no_solution_without_propagation (fuel : nat) (self : CSP V D)
    (a : gmap V D) (u : gmap V (gset D)) (cfg : Config) (r : Run V D) :
  propagate_constraints cfg = false →
  u ≠ ∅ →
  search fuel self a (Some u) cfg = Some r →
  yielded r = [].
Proof.
  intros Hprop Hu Hr. destruct (yielded r) as [|sol sols] eqn:Hy; [done|].
  assert (sol ∈ yielded r) as Hsol by (rewrite Hy; by left).
  eapply search_emits in Hsol; [|done..].
  apply emits_without_propagation in Hsol; [|done].
  by rewrite truthy_nonempty in Hsol.
Qed.

Lemma for_each_value_raised rec cfg a u v vals (self : CSP V D) r e :
  keeps_constraints rec →
  for_each_value rec cfg a u v vals self = Some r →
  raised r = Some e →
  ∃ x, x ∈ vals ∧
    (next_unassigned_of self cfg v x u = inl e ∨
     ∃ nu, next_unassigned_of self cfg v x u = inr nu ∧
       (still_consistent self cfg v (<[v:=x]> a) nu = inl e ∨
        ∃ s r', constraints s = constraints self ∧
          rec s (<[v:=x]> a) nu = Some r' ∧ raised r' = Some e)).
Proof.
  intros Hk. revert self r.
  induction vals as [|x vals IH]; intros self r Hr He; simpl in Hr.
  { injection Hr as <-. done. }
  assert (Hlater : ∀ s r2, constraints s = constraints self →
            for_each_value rec cfg a u v vals s = Some r2 →
            raised r2 = Some e →
            ∃ x0, x0 ∈ x :: vals ∧
              (next_unassigned_of self cfg v x0 u = inl e ∨
               ∃ nu, next_unassigned_of self cfg v x0 u = inr nu ∧
                 (still_consistent self cfg v (<[v:=x0]> a) nu = inl e ∨
                  ∃ s' r', constraints s' = constraints self ∧
                    rec s' (<[v:=x0]> a) nu = Some r' ∧ raised r' = Some e))).
  { intros s r2 Hs Hr2 He2.
    destruct (IH s r2 Hr2 He2) as (y & Hy & Hcases). exists y.
    split; [by right|].
    rewrite (next_unassigned_of_constraints self s) in Hcases by done.
    destruct Hcases as [?|(nu & Hnu & Hcases)]; [by left|].
    right. exists nu. split; [done|].
    rewrite (still_consistent_constraints self s) in Hcases by done.
    destruct Hcases as [?|(s' & r' & Hs' & Hrest)]; [by left|].
    right. exists s', r'. split; [congruence|done]. }
  destruct (next_unassigned_of self cfg v x u) as [e'|nu] eqn:Hnu.
  { injection Hr as <-. injection He as ->. exists x. split; [by left|by left]. }
  destruct (still_consistent self cfg v (<[v:=x]> a) nu) as [e'|[]] eqn:Hsc.
  - injection Hr as <-. injection He as ->. exists x. split; [by left|].
    right. exists nu. split; [done|by left].
  - apply then_Some in Hr as (r1 & Hr1 & [[_ ->]|(_ & r2 & Hr2 & ->)]).
    + exists x. split; [by left|]. right. exists nu. split; [done|].
      right. by exists self, r1.
    + simpl in He. eapply Hlater; [|done..]. by apply Hk in Hr1.
  - by eapply Hlater.
Qed.

Lemma search_raises_nothing (self : CSP V D) cfg :
  selects_unassigned select_next_var cfg →
  every_constraint self never_adds →
  ∀ fuel s a u r,
    constraints s = constraints self →
    (∀ u', u = Some u' → dom u' ⊆ dom (constraints self)) →
    search fuel s a u cfg = Some r → raised r = None.
Proof.
  intros Hsel Hall. induction fuel as [|fuel IH]; intros s a u r Hs Hkeys Hr;
    [done|].
  destruct u as [u|]; [|by injection Hr as <-].
  destruct (decide (u = ∅)) as [->|Hu]; [by injection Hr as <-|].
  specialize (Hkeys u eq_refl). rewrite search_unfold in Hr by done.
  apply printing_Some in Hr as (r0 & Hr0 & _ & -> & _).
  destruct (raised r0) as [e|] eqn:He; [|done]. exfalso.
  pose proof (report_constraints s (size u)) as Hrep.
  specialize (Hsel u Hu).
  destruct (select_next_var _ _ u) as [v vals]. simpl in *.
  assert (is_Some (constraints self !! v)) as [cs Hcs]
    by by apply elem_of_dom, Hkeys.
  assert (constraints (report s (size u)).1 = constraints self) as Hs1
    by congruence.
  destruct (for_each_value_raised _ cfg a u v vals _ r0 e
              (search_keeps_constraints select_next_var fuel cfg) Hr0 He)
    as (x & _ & [Hnu|(nu & Hnu & [Hsc|(s' & r' & Hs' & Hrec & He')])]).
  - unfold next_unassigned_of in Hnu. rewrite Hs1, Hcs in Hnu.
    by destruct (propagate_constraints cfg).
  - unfold still_consistent, consistent in Hsc. rewrite Hs1, Hcs in Hsc.
    by destruct (truthy nu && negb (check_constraints cfg)).
  - apply IH in Hrec; [congruence|congruence|].
    intros u' ->. rewrite (next_unassigned_of_constraints self) in Hnu by done.
    apply next_unassigned_narrows in Hnu; [|done].
    intros w [d' Hw]%elem_of_dom. apply Hkeys.
    destruct (Hnu _ _ Hw) as (d & Hd & _). apply elem_of_dom. by eexists.
Qed.

(** On an object made by the constructor and registrations, a search whose
    unassigned dictionary has variables of the object for keys raises no
    [KeyError], provided the policy selects keys of the dictionary and
    propagation adds none: the two subscripts [self.constraints[...]] always
    find their key, so a run that returns ends without an exception.  If
    moreover what a recursive call receives lacks the selected variable,
    the run does return, no deeper than one call more than there are
    variables, and without an exception. *)
Theorem search_on_variables_raises_nothing (self : CSP V D)
    (a : gmap V D) (u : gmap V (gset D)) (cfg : Config) :
  constructed self →
  dom u ⊆ list_to_set (variables self) →
  selects_unassigned select_next_var cfg →
  every_constraint self never_adds →
  (∀ fuel r, search fuel self a (Some u) cfg = Some r → raised r = None) ∧
  (recursion_excludes_selected select_next_var self cfg →
   ∃ r, (∀ fuel, length (variables self) < fuel →
           search fuel self a (Some u) cfg = Some r) ∧
        raised r = None).
Proof.
  intros Hc Hu Hsel Hall.
  assert (∀ fuel r, search fuel self a (Some u) cfg = Some r → raised r = None)
    as Hnone.
  { intros fuel r Hr.
    eapply (search_raises_nothing self cfg Hsel Hall fuel self a (Some u));
      [done| |done].
    intros u' [= <-]. by rewrite (constructed_keys self Hc). }
  split; [done|]. intros Hexcl.
  assert (size u ≤ length (variables self)) as Hsize.
  { rewrite <-size_dom. etrans; [by apply subseteq_size|].
    apply size_list_to_set_le. }
  destruct (search_total select_next_var self cfg Hsel Hexcl
              (S (length (variables self))) self a (Some u)) as [r Hr];
    [done|simpl; lia|].
  exists r. split; [|by eapply Hnone].
  intros fuel Hfuel. eapply search_fuel_mono; [|done]. lia.
Qed.

(** ** No solution twice *)

(** A binding of a variable that is not unassigned stays as it is in every
    solution found below. *)
Lemma emits_keeps_binding (self : CSP V D) cfg a u sol :
  selects_unassigned select_next_var cfg →
  recursion_excludes_selected select_next_var self cfg →
  emits select_next_var self cfg a u sol →
  ∀ w y, a !! w = Some y → (∀ u', u = Some u' → w ∉ dom u') →
    sol !! w = Some y.
Proof.
  intros Hsel Hexcl.
  induction 1 as [a u _|a u x nu sol Hu selected Hx Hnu Hsc _ IH];
    intros w y Ha Hw; [done|].
  specialize (Hsel u Hu). fold selected in Hsel.
  assert (w ≠ selected.1) as Hne.
  { intros ->. by apply (Hw u). }
  apply IH; [by rewrite lookup_insert_ne|].
  intros u' ->. pose proof (Hexcl a u x u' Hu Hx Hnu Hsc) as Hdom.
  intros Hin. apply Hdom, elem_of_difference in Hin as [Hin _].
  by apply (Hw u).
Qed.

Lemma for_each_value_NoDup rec cfg a u v vals (self0 self : CSP V D) r :
  keeps_constraints rec →
  (∀ s a' u' r', constraints s = constraints self0 →
     rec s a' u' = Some r' → NoDup (yielded r')) →
  (∀ s x nu r' sol,
     constraints s = constraints self0 → x ∈ vals →
     next_unassigned_of self0 cfg v x u = inr nu →
     still_consistent self0 cfg v (<[v:=x]> a) nu = inr true →
     rec s (<[v:=x]> a) nu = Some r' → sol ∈ yielded r' →
     sol !! v = Some x) →
  NoDup vals →
  constraints self = constraints self0 →
  for_each_value rec cfg a u v vals self = Some r →
  NoDup (yielded r).
Proof.
  intros Hk Hrec. revert self r.
  induction vals as [|x vals IH]; intros self r Hbind Hnd Hs Hr; simpl in Hr.
  { injection Hr as <-. constructor. }
  apply NoDup_cons in Hnd as [Hx Hnd].
  assert (Hbind' : ∀ s y nu r' sol,
            constraints s = constraints self0 → y ∈ vals →
            next_unassigned_of self0 cfg v y u = inr nu →
            still_consistent self0 cfg v (<[v:=y]> a) nu = inr true →
            rec s (<[v:=y]> a) nu = Some r' → sol ∈ yielded r' →
            sol !! v = Some y).
  { intros s y nu r' sol Hs' Hy. apply Hbind; [done|by right]. }
  destruct (next_unassigned_of self cfg v x u) as [e|nu] eqn:Hnu.
  { injection Hr as <-. constructor. }
  destruct (still_consistent self cfg v (<[v:=x]> a) nu) as [e|[]] eqn:Hsc;
    [injection Hr as <-; constructor| |by eapply IH].
  rewrite (next_unassigned_of_constraints self0 self) in Hnu by done.
  rewrite (still_consistent_constraints self0 self) in Hsc by done.
  apply then_Some in Hr as (r1 & Hr1 & [[_ ->]|(_ & r2 & Hr2 & ->)]);
    [by apply (Hrec _ _ _ _ Hs Hr1)|].
  assert (constraints (final r1) = constraints self0) as Hs1.
  { apply Hk in Hr1. congruence. }
  simpl. apply NoDup_app. split_and!.
  - by apply (Hrec _ _ _ _ Hs Hr1).
  - intros sol Hsol1 Hsol2.
    assert (sol !! v = Some x) as Hvx.
    { eapply (Hbind self x nu r1 sol); [done|by left|done..]. }
    destruct (for_each_value_yielded _ _ _ _ _ _ _ _ _ Hk Hr2 Hsol2)
      as (s & y & nu' & r' & Hs' & Hy & Hnu' & Hsc' & Hrec' & Hin).
    rewrite (next_unassigned_of_constraints self0 (final r1)) in Hnu' by done.
    rewrite (still_consistent_constraints self0 (final r1)) in Hsc' by done.
    assert (sol !! v = Some y) as Hvy.
    { eapply (Hbind' s y nu' r' sol); [congruence|done..]. }
    congruence.
  - by eapply IH.
Qed.

(** A search yields no solution twice when the policy selects keys of the
    unassigned dictionary and offers no value twice, and the selected
    variable is never handed down to a recursive call: solutions of
    different values of a variable differ in that variable. *)
Theorem solutions_distinct (fuel : nat) (self : CSP V D) (a : gmap V D)
    (u : option (gmap V (gset D))) (cfg : Config) (r : Run V D) :
  selects_unassigned select_next_var cfg →
  offers_each_value_once select_next_var cfg →
  recursion_excludes_selected select_next_var self cfg →
  search fuel self a u cfg = Some r →
  NoDup (yielded r).
Proof.
  intros Hsel Honce Hexcl.
  assert (Hgen : ∀ s, constraints s = constraints self →
            search fuel s a u cfg = Some r → NoDup (yielded r));
    [|by apply Hgen].
  revert a u r. induction fuel as [|fuel IH]; intros a u r s Hs Hr; [done|].
  destruct u as [u|]; [|injection Hr as <-; apply NoDup_singleton].
  destruct (decide (u = ∅)) as [->|Hu].
  { injection Hr as <-. apply NoDup_singleton. }
  rewrite search_unfold in Hr by done.
  apply printing_Some in Hr as (r0 & Hr0 & -> & _).
  pose proof (report_constraints s (size u)) as Hrep.
  eapply (for_each_value_NoDup _ cfg a u _ _ self); [| | | | |exact Hr0].
  - apply search_keeps_constraints.
  - intros s' a' u' r' Hs' Hr'. exact (IH _ _ _ s' Hs' Hr').
  - intros s' x nu r' sol Hs' Hx Hnu Hsc Hr' Hsol.
    pose proof (search_emits select_next_var self cfg fuel s' _ _ r' sol
                  Hs' Hr' Hsol) as Hem.
    eapply (emits_keeps_binding self cfg _ _ sol Hsel Hexcl Hem);
      [apply lookup_insert_eq|].
    intros u' ->. pose proof (Hexcl a u x u' Hu Hx Hnu Hsc) as Hdom.
    intros Hin. apply Hdom, elem_of_difference in Hin as [_ Hin].
    by apply Hin, elem_of_singleton.
  - by apply Honce.
  - congruence.
Qed.

(** ** Every solution is found *)

Lemma within_delete (u : gmap V (gset D)) s v : within u s → within (delete v u) s.
Proof. intros Hw w d [_ Hd]%lookup_delete_Some. by apply Hw. Qed.

Lemma propagate_all_keeps (cs : list (Constraint V D)) v x u s :
  (∀ c, c ∈ cs → propagate_keeps c ∧ Constraint.satisfied c s = true) →
  s !! v = Some x → v ∉ dom u → within u s →
  ∃ nu, propagate_all cs v x (Some u) = Some nu ∧ dom nu = dom u ∧ within nu s.
Proof.
  intros Hcs Hs. revert u. induction cs as [|c cs IH]; intros u Hv Hu.
  { by exists u. }
  destruct (Hcs c) as [Hkeep Hsat]; [by left|].
  destruct (Hkeep v x u s Hs Hsat (within_delete _ _ _ Hu))
    as (nu1 & Hnu1 & Hdom1 & Hin1).
  assert (dom nu1 = dom u) as Hdom1'.
  { rewrite Hdom1. apply set_eq. intros w.
    rewrite elem_of_difference, elem_of_singleton. split; [by intros [? _]|].
    intros Hw. split; [done|]. by intros ->. }
  destruct (IH (λ c' Hc', Hcs c' (list_elem_of_further _ _ _ Hc')) nu1)
    as (nu & Hnu & Hdom & Hin); [by rewrite Hdom1'|done|].
  exists nu. rewrite propagate_all_cons, Hnu1. split_and!; [done| |done].
  congruence.
Qed.

Lemma propagate_all_keeps_first (c : Constraint V D) cs v x u s :
  (∀ c', c' ∈ c :: cs → propagate_keeps c' ∧ Constraint.satisfied c' s = true) →
  s !! v = Some x → within (delete v u) s →
  ∃ nu, propagate_all (c :: cs) v x (Some u) = Some nu ∧
        dom nu = dom u ∖ {[v]} ∧ within nu s.
Proof.
  intros Hcs Hs Hu. destruct (Hcs c) as [Hkeep Hsat]; [by left|].
  destruct (Hkeep v x u s Hs Hsat Hu) as (nu1 & Hnu1 & Hdom1 & Hin1).
  destruct (propagate_all_keeps cs v x nu1 s) as (nu & Hnu & Hdom & Hin);
    [by intros c' Hc'; apply Hcs; right|done| |done|].
  { rewrite Hdom1. intros [_ Hne]%elem_of_difference.
    by apply Hne, elem_of_singleton. }
  exists nu. rewrite propagate_all_cons, Hnu1. split_and!; [done| |done].
  congruence.
Qed.

Lemma for_each_value_reaches rec cfg a u v vals (self0 self : CSP V D) r
    x nu sol :
  keeps_constraints rec →
  next_unassigned_of self0 cfg v x u = inr nu →
  still_consistent self0 cfg v (<[v:=x]> a) nu = inr true →
  (∀ s r', constraints s = constraints self0 →
     rec s (<[v:=x]> a) nu = Some r' → raised r' = None → sol ∈ yielded r') →
  x ∈ vals →
  constraints self = constraints self0 →
  for_each_value rec cfg a u v vals self = Some r →
  raised r = None →
  sol ∈ yielded r.
Proof.
  intros Hk Hnu Hsc Hrec. revert self r.
  induction vals as [|y vals IH]; intros self r Hx Hs Hr He; [by inversion Hx|].
  simpl in Hr.
  destruct (next_unassigned_of self cfg v y u) as [e|nu'] eqn:Hny;
    [by injection Hr as <-|].
  destruct (still_consistent self cfg v (<[v:=y]> a) nu') as [e|b] eqn:Hscy;
    [by injection Hr as <-|].
  rewrite (next_unassigned_of_constraints self0 self) in Hny by done.
  rewrite (still_consistent_constraints self0 self) in Hscy by done.
  assert (Htail : ∀ self' r', constraints self' = constraints self0 →
            x ≠ y → for_each_value rec cfg a u v vals self' = Some r' →
            raised r' = None → sol ∈ yielded r').
  { intros self' r' Hs' Hne Hr' He'. eapply IH; [|done..].
    by apply elem_of_cons in Hx as [?|Hx]. }
  destruct (decide (x = y)) as [<-|Hne].
  - rewrite Hnu in Hny. injection Hny as <-.
    rewrite Hsc in Hscy. injection Hscy as <-.
    apply then_Some in Hr as (r1 & Hr1 & [[Hraised ->]|(He1 & r2 & Hr2 & ->)]);
      [done|].
    simpl. apply elem_of_app. left. by eapply Hrec.
  - destruct b; [|by eapply Htail].
    apply then_Some in Hr as (r1 & Hr1 & [[Hraised ->]|(He1 & r2 & Hr2 & ->)]);
      [done|].
    simpl in *. apply elem_of_app. right. eapply Htail; [|done..].
    apply Hk in Hr1. congruence.
Qed.

(** Exhaustiveness.  With propagation on, a policy that offers every
    candidate of the variable it selects, constraints that hold under the
    parts of an assignment they hold under and whose [propagate] removes no
    value a satisfying assignment uses, and at least one constraint in the
    list of every variable: a search that runs to its end without an
    exception yields every assignment of the unassigned variables to
    candidates that satisfies all constraints. *)
Theorem search_exhaustive (fuel : nat) (self : CSP V D) (cfg : Config)
    (u : gmap V (gset D)) (s : gmap V D) (r : Run V D) :
  propagate_constraints cfg = true →
  offers_all_candidates select_next_var cfg →
  every_constraint self satisfied_by_parts →
  every_constraint self propagate_keeps →
  (∀ v, v ∈ dom u → ∃ c cs, constraints self !! v = Some (c :: cs)) →
  dom s = dom u → within u s → all_satisfied self s →
  search fuel self ∅ (Some u) cfg = Some r → raised r = None →
  s ∈ yielded r.
Proof.
  intros Hprop Hoffer Hparts Hkeeps Hlists Hdom Hwithin Hsat.
  assert (Hgen : ∀ s0 a u', constraints s0 = constraints self →
            a ⊆ s → within u' s → dom a ∪ dom u' = dom s →
            search fuel s0 a (Some u') cfg = Some r → raised r = None →
            s ∈ yielded r).
  2:{ apply Hgen; [done|apply map_empty_subseteq|done|].
      rewrite dom_empty_L, Hdom. apply (left_id_L ∅ (∪)). }
  clear Hwithin. rewrite <-Hdom in Hlists. clear Hdom u.
  revert r. induction fuel as [|fuel IH]; intros r s0 a u Hs0 Ha Hu Hdom Hr He;
    [done|].
  destruct (decide (u = ∅)) as [->|Hne].
  { injection Hr as <-. rewrite dom_empty_L, (right_id_L ∅ (∪)) in Hdom.
    assert (a = s) as -> by (apply subseteq_dom_eq; [done|by rewrite Hdom]).
    by left. }
  rewrite search_unfold in Hr by done.
  apply printing_Some in Hr as (r0 & Hr0 & -> & He0 & _). rewrite He in He0.
  pose proof (report_constraints s0 (size u)) as Hrep.
  destruct (Hoffer u Hne) as (d & Hd & Hall).
  set (v := (select_next_var (search_strategy cfg) (order_domain cfg) u).1) in *.
  destruct (Hu v d Hd) as (x & Hsv & Hx).
  assert (v ∈ dom s) as Hvs by (apply elem_of_dom; by eexists).
  destruct (Hlists v Hvs) as (c & cs & Hcs).
  assert (∀ c', c' ∈ c :: cs →
            propagate_keeps c' ∧ Constraint.satisfied c' s = true) as Hchain.
  { intros c' Hc'. split; [by eapply Hkeeps|by eapply Hsat]. }
  destruct (propagate_all_keeps_first c cs v x u s Hchain Hsv
              (within_delete _ _ _ Hu)) as (nu & Hnu & Hdnu & Hwnu).
  assert (next_unassigned_of self cfg v x u = inr (Some nu)) as Hnext.
  { unfold next_unassigned_of. by rewrite Hprop, Hcs, Hnu. }
  assert (still_consistent self cfg v (<[v:=x]> a) (Some nu) = inr true) as Hsc.
  { unfold still_consistent, consistent. rewrite Hcs.
    destruct (truthy (Some nu) && negb (check_constraints cfg)); [done|].
    f_equal. apply forallb_forall. intros c' Hc'%list_elem_of_In.
    eapply Hparts; [done..| |by eapply Hsat].
    by apply insert_subseteq_l. }
  eapply (for_each_value_reaches _ cfg a u v _ self _ r0 x (Some nu));
    [apply search_keeps_constraints|done|done| |by apply Hall| |done|done].
  - intros s' r' Hs' Hr' He'.
    apply (IH r' s' (<[v:=x]> a) nu Hs'); [|done| |exact Hr'|done].
    + by apply insert_subseteq_l.
    + rewrite dom_insert_L, Hdnu, <-Hdom.
      assert (v ∈ dom u) as Hvu by (apply elem_of_dom; by eexists).
      apply set_eq. intros w.
      rewrite !elem_of_union, elem_of_difference, !elem_of_singleton.
      destruct (decide (w = v)) as [->|Hwv]; split.
      * intros _. by right.
      * intros _. left. by left.
      * intros [[?|?]|[? _]]; [done|by left|by right].
      * intros [?|?]; [left; by right|right; by split].
  - congruence.
Qed.

End search_effects.

(** ** When the preconditions of termination hold *)

Section preconditions.
Context {V D : Type} `{Countable V, Countable D}.
Variable select_next_var : string → bool → gmap V (gset D) → V * list D.

Lemma selects_candidates_unassigned cfg :
  selects_candidates select_next_var cfg → selects_unassigned select_next_var cfg.
Proof.
  intros Hsel u Hu. destruct (Hsel u Hu) as (d & Hd & _).
  apply elem_of_dom. by eexists.
Qed.

(** With propagation on, constraints that only remove values and take the
    bound variable out, and at least one constraint in every list, the
    selected variable is gone from what the recursive call receives. *)
Lemma conforming_recursion_excludes (self : CSP V D) cfg :
  propagate_constraints cfg = true →
  every_constraint self never_adds →
  every_constraint self takes_out →
  (∀ v, constraints self !! v ≠ Some []) →
  recursion_excludes_selected select_next_var self cfg.
Proof.
  intros Hprop Hadds Hout Hne a u x nu Hu selected Hx Hnu _.
  unfold next_unassigned_of in Hnu. rewrite Hprop in Hnu.
  destruct (constraints self !! selected.1) as [cs|] eqn:Hcs; [|done].
  injection Hnu as Hnu.
  assert (Hna : ∀ c', c' ∈ cs → never_adds c').
  { intros c' Hc'. by eapply Hadds. }
  pose proof (propagate_all_narrows cs _ _ _ _ Hna Hnu) as Hnar.
  destruct cs as [|c cs]; [by apply Hne in Hcs|].
  destruct (propagate_all_through (c :: cs) c _ _ _ _ Hna (list_elem_of_here _ _) Hnu)
    as (u_in & u_out & Hp & Hn).
  assert (nu !! selected.1 = None) as Hgone.
  { eapply narrows_None; [done|].
    eapply (Hout _ _ c Hcs); [by left|done]. }
  intros w [d' Hw]%elem_of_dom. apply elem_of_difference. split.
  - destruct (Hnar _ _ Hw) as (d & Hd & _). apply elem_of_dom. by eexists.
  - intros ->%elem_of_singleton. congruence.
Qed.

End preconditions.

(** ** The test of line 81 on an absent snapshot *)

Section line81.
Context {V D : Type} `{Countable V, Countable D}.
Variable select_next_var : string → bool → gmap V (gset D) → V * list D.

(** C2, as the code has it.  With propagation on, let the chain of the
    first candidate value end in an absent or empty snapshot.  Line 81 then
    leaves the decision to [consistent]; when that holds the branch is not
    pruned: the recursive call is made on the snapshot, takes it for a
    finished search, and the extended assignment is the first solution of
    the run.  [check_constraints] has no part in this. *)
Theorem falsy_snapshot_branch_emitted (self : CSP V D) (cfg : Config)
    (fuel : nat) (a : gmap V D) (u : gmap V (gset D)) (v : V) (x : D)
    (rest : list D) (nu : option (gmap V (gset D))) (r : Run V D) :
  propagate_constraints cfg = true →
  u ≠ ∅ →
  select_next_var (search_strategy cfg) (order_domain cfg) u = (v, x :: rest) →
  next_unassigned_of self cfg v x u = inr nu →
  truthy nu = false →
  consistent self v (<[v:=x]> a) = inr true →
  backtracking_search select_next_var (S (S fuel)) self a (Some u) cfg = Some r →
  ∃ more, yielded r = <[v:=x]> a :: more.
Proof.
  intros _ Hu Hsel Hnu Hfalsy Hcons Hr.
  change (backtracking_search select_next_var (S (S fuel)) self a (Some u) cfg)
    with (if decide (u = ∅) then Some (Build_Run [a] None self [])
          else let '(self, out) := report self (size u) in
               let '(next_var, next_var_domain) :=
                 select_next_var (search_strategy cfg) (order_domain cfg) u in
               printing out
                 (for_each_value
                    (λ self a u,
                       backtracking_search select_next_var (S fuel) self a u cfg)
                    cfg a u next_var next_var_domain self)) in Hr.
  rewrite decide_False in Hr by done.
  pose proof (report_constraints self (size u)) as Hrep.
  destruct (report self (size u)) as [self1 out]. simpl in Hrep.
  rewrite Hsel in Hr.
  apply printing_Some in Hr as (r0 & Hr0 & -> & _).
  rewrite for_each_value_cons in Hr0.
  rewrite (next_unassigned_of_constraints self self1), Hnu in Hr0 by done.
  rewrite (still_consistent_constraints self self1) in Hr0 by done.
  unfold still_consistent in Hr0. rewrite Hfalsy, Hcons in Hr0.
  cbn [andb] in Hr0.
  assert (backtracking_search select_next_var (S fuel) self1 (<[v:=x]> a) nu cfg
          = Some (Build_Run [<[v:=x]> a] None self1 [])) as Hrec.
  { simpl. destruct nu as [u'|]; [|done]. simpl in Hfalsy.
    apply negb_false_iff, bool_decide_eq_true in Hfalsy.
    by rewrite decide_True. }
  rewrite Hrec in Hr0.
  apply then_Some in Hr0 as (r1 & [= <-] & [[? _]|(_ & r2 & _ & ->)]); [done|].
  by eexists.
Qed.

End line81.

(** ** The two-variable problems *)

Section examples.
Import Example.

Lemma problem_built (ds : gmap string (gset nat)) :
  is_Some (ds !! A) → is_Some (ds !! B) → built (problem ds).
Proof.
  intros [da Ha] [db Hb].
  assert (__init__ [A; B] ds =
          inr (Build_CSP [A; B] ds {[ A := []; B := [] ]} 2 0)) as Hinit.
  { unfold __init__. simpl. by rewrite Ha, Hb. }
  pose proof (built_add _ differ (built_init _ _ _ Hinit)) as Hadd.
  assert (add_constraint (Build_CSP [A; B] ds {[ A := []; B := [] ]} 2 0) differ
          = (problem ds, None)) as Heq.
  { reflexivity. }
  rewrite Heq in Hadd. by apply Hadd.
Qed.

Lemma neq_never_adds x y : never_adds (neq x y).
Proof.
  split; [done|]. intros v val u nu Hnu w d' Hw. simpl in Hnu.
  unfold neq_propagate in Hnu. case_bool_decide; [|done].
  injection Hnu as <-.
  assert (∀ m : gmap string (gset nat), m !! w = Some d' →
          (∀ k d, m !! k = Some d → ∃ d0, delete v u !! k = Some d0 ∧ d ⊆ d0) →
          ∃ d, u !! w = Some d ∧ d' ⊆ d) as Hdel.
  { intros m Hm Hsub. destruct (Hsub _ _ Hm) as (d0 & Hd0 & Hle).
    apply lookup_delete_Some in Hd0 as [_ Hd0]. by exists d0. }
  eapply Hdel; [done|]. intros k d Hk.
  repeat case_decide; try (by exists d).
  all: apply lookup_alter_Some in Hk as [(<- & d1 & Hd1 & ->)|[_ Hk]];
    [exists d1; split; [done|apply subseteq_difference_l; reflexivity]
    |by exists d].
Qed.

Lemma neq_takes_out x y : takes_out (neq x y).
Proof.
  intros v val u nu Hnu. simpl in Hnu. unfold neq_propagate in Hnu.
  case_bool_decide; [|done]. injection Hnu as <-.
  repeat case_decide; try apply lookup_alter_None; apply lookup_delete_eq.
Qed.




Lemma problem_every (P : Constraint string nat → Prop) ds :
  P differ → every_constraint (problem ds) P.
Proof.
  intros HP v cs c Hv Hc. simpl in Hv.
  apply lookup_insert_Some in Hv as [[_ <-]|[_ Hv]].
  { by apply list_elem_of_singleton in Hc as ->. }
  apply lookup_singleton_Some in Hv as [_ <-].
  by apply list_elem_of_singleton in Hc as ->.
Qed.

Lemma problem_lists_nonempty ds v : constraints (problem ds) !! v ≠ Some [].
Proof.
  simpl. intros Hv.
  apply lookup_insert_Some in Hv as [[_ ?]|[_ Hv]]; [done|].
  by apply lookup_singleton_Some in Hv as [_ ?].
Qed.

Lemma fold_smaller_domain_in (u : gmap string (gset nat)) vs v :
  fold_left (smaller_domain u) vs v ∈ v :: vs.
Proof.
  revert v. induction vs as [|w vs IH]; intros v; simpl; [by left|].
  specialize (IH (smaller_domain u v w)). unfold smaller_domain in *.
  case_decide; apply elem_of_cons in IH as [->|IH];
    (by left) || (by right; left) || (by do 2 right).
Qed.

Lemma select_next_var_selects_candidates order cfg :
  selects_candidates (select_next_var order) cfg.
Proof.
  intros u Hu. unfold select_next_var. simpl.
  set (candidates := filter (λ v, is_Some (u !! v)) order).
  set (next_var := match candidates with
                   | [] => default ""%string (fst <$> head (map_to_list u))
                   | v :: vs =>
                       if decide (search_strategy cfg = "ff"%string)
                       then fold_left (smaller_domain u) vs v else v
                   end).
  assert (is_Some (u !! next_var)) as [d Hd].
  { subst next_var. destruct candidates as [|v vs] eqn:Hc.
    - destruct (map_to_list u) as [|[k dk] l] eqn:Hl.
      + by apply map_to_list_empty_iff in Hl.
      + simpl. exists dk. apply elem_of_map_to_list. rewrite Hl. by left.
    - assert (∀ w, w ∈ v :: vs → is_Some (u !! w)) as Hall.
      { intros w Hw. rewrite <-Hc in Hw. subst candidates.
        by apply list_elem_of_filter in Hw as [? _]. }
      case_decide; apply Hall; [apply fold_smaller_domain_in|by left]. }
  exists d. split; [done|]. intros x Hx.
  rewrite (lookup_total_correct _ _ _ Hd) in Hx.
  destruct (order_domain cfg).
  - rewrite merge_sort_Permutation in Hx. by apply elem_of_elements in Hx.
  - by apply elem_of_elements in Hx.
Qed.

Lemma policy_selects_candidates cfg : selects_candidates policy cfg.
Proof. apply select_next_var_selects_candidates. Qed.

Lemma fresh_constructed (ds : gmap string (gset nat)) :
  is_Some (ds !! A) → is_Some (ds !! B) → constructed (fresh ds).
Proof.
  intros [da Ha] [db Hb]. apply (constructed_init [A; B] ds).
  unfold __init__. simpl. by rewrite Ha, Hb.
Qed.

Lemma both_one_nonempty : both_one ≠ ∅.
Proof. intros Heq. by apply (f_equal (λ m, m !! A)) in Heq. Qed.

(** The run of the unsatisfiable example, with and without
    [check_constraints]. *)
Lemma both_one_run cfg :
  cfg = default_config ∨ cfg = checking →
  ∃ r, backtracking_search policy 2 (problem both_one) ∅ (Some both_one) cfg = Some r ∧
       yielded r = [{[ A := 1 ]}] ∧ raised r = None.
Proof.
  intros Hcfg.
  assert (trace (backtracking_search policy 2 (problem both_one) ∅
                   (Some both_one) cfg) = Some ([{[ A := 1 ]}], None)) as Ht.
  { destruct Hcfg as [->| ->]; vm_compute; reflexivity. }
  destruct (backtracking_search policy 2 (problem both_one) ∅ (Some both_one) cfg)
    as [r|]; [|done].
  injection Ht as Hy He. by exists r.
Qed.

(** C1 at the unsatisfiable example: the only solution of the run has no
    value for [B], a variable of the problem. *)
Theorem solution_without_a_variable :
  built (problem both_one) ∧
  ∃ r sol,
    backtracking_search policy 2 (problem both_one) ∅ (Some (domains (problem both_one)))
      default_config = Some r ∧
    yielded r = [sol] ∧ B ∈ variables (problem both_one) ∧ sol !! B = None.
Proof.
  split; [by apply problem_built|].
  destruct (both_one_run default_config) as (r & Hr & Hy & _); [by left|].
  exists r, {[ A := 1 ]}. split_and!; [done..| |done]. by right; left.
Qed.

(** C2 at the unsatisfiable example: binding [A] to [1] empties the domain
    of [B], the chain answers [None], and the run still yields the
    assignment of that branch. *)
Lemma pruned_branch_of_example_emitted :
  next_unassigned_of (problem both_one) default_config A 1 both_one = inr None ∧
  ∃ r, backtracking_search policy 2 (problem both_one) ∅ (Some both_one) default_config
         = Some r ∧
       ∃ more, yielded r = <[A:=1]> ∅ :: more.
Proof.
  split; [done|].
  destruct (both_one_run default_config) as (r & Hr & _); [by left|].
  exists r. split; [done|].
  apply (falsy_snapshot_branch_emitted policy (problem both_one)
           default_config 0 ∅ both_one A 1 [] None r).
  - reflexivity.
  - apply both_one_nonempty.
  - reflexivity.
  - reflexivity.
  - reflexivity.
  - reflexivity.
  - exact Hr.
Defined.

(** C3 at its example: variables [A] and [B] with domain [{1}] each and
    the constraint that they differ.  Whatever the recursion allowance from
    two calls on, and whether [check_constraints] is set or not, the search
    returns without an exception and its sequence of solutions is not
    empty: it holds the partial assignment [{A: 1}]. *)
Theorem unsatisfiable_example_yields_partial_assignment :
  ∃ r r',
    (∀ fuel, 2 ≤ fuel →
       backtracking_search policy fuel (problem both_one) ∅ (Some both_one) default_config
         = Some r) ∧
    (∀ fuel, 2 ≤ fuel →
       backtracking_search policy fuel (problem both_one) ∅ (Some both_one) checking
         = Some r') ∧
    yielded r = [{[ A := 1 ]}] ∧ raised r = None ∧
    yielded r' = [{[ A := 1 ]}] ∧ raised r' = None.
Proof.
  destruct (both_one_run default_config) as (r & Hr & Hy & He); [by left|].
  destruct (both_one_run checking) as (r' & Hr' & Hy' & He'); [by right|].
  exists r, r'. split_and!; try done.
  - intros fuel Hfuel. by eapply search_fuel_mono.
  - intros fuel Hfuel. by eapply search_fuel_mono.
Qed.

(** The run of the satisfiable example. *)
Lemma one_or_two_run :
  ∃ r, backtracking_search policy 3 (problem one_or_two) ∅ (Some one_or_two)
         default_config = Some r ∧
       yielded r = [{[ A := 1; B := 2 ]}; {[ A := 2; B := 1 ]}] ∧
       raised r = None.
Proof.
  assert (trace (backtracking_search policy 3 (problem one_or_two) ∅
                   (Some one_or_two) default_config)
          = Some ([{[ A := 1; B := 2 ]}; {[ A := 2; B := 1 ]}], None)) as Ht.
  { vm_compute. reflexivity. }
  destruct (backtracking_search policy 3 (problem one_or_two) ∅
              (Some one_or_two) default_config) as [r|]; [|done].
  injection Ht as Hy He. by exists r.
Qed.






Lemma all_different_takes_out vs : takes_out (all_different vs).
Proof.
  intros v val u nu Hnu. simpl in Hnu.
  unfold all_different_propagate in Hnu. case_bool_decide; [|done].
  injection Hnu as <-. case_decide.
  - by rewrite map_lookup_imap, lookup_delete_eq.
  - apply lookup_delete_eq.
Qed.












(** C6 at the satisfiable example: registering [differ] on the fresh
    object. *)
Lemma differ_registered :
  ((add_constraint (fresh one_or_two) differ).2 = Some UnknownVariableError ↔
     ∃ v, v ∈ Constraint.variables differ ∧ v ∉ variables (fresh one_or_two)) ∧
  ((add_constraint (fresh one_or_two) differ).2 = None ↔
     ∀ v, v ∈ Constraint.variables differ → v ∈ variables (fresh one_or_two)) ∧
  ((add_constraint (fresh one_or_two) differ).2 = None →
     ∀ v, v ∈ Constraint.variables differ →
       ∃ cs, constraints (add_constraint (fresh one_or_two) differ).1 !! v
               = Some cs ∧ differ ∈ cs).
Proof.
  apply (add_constraint_raises_iff_unknown (fresh one_or_two) differ).
  by apply fresh_constructed.
Defined.

(** C7 as stated fails: registering [stray], which names [A] and then the
    unknown [Z], raises, and the list of [A] has changed. *)
Lemma failed_registration_not_atomic :
  ∃ (self : CSP string nat) (c : Constraint string nat),
    constructed self ∧
    (add_constraint self c).2 = Some UnknownVariableError ∧
    constraints (add_constraint self c).1 ≠ constraints self.
Proof.
  exists (fresh one_or_two), stray. split_and!.
  - by apply fresh_constructed.
  - done.
  - intros Heq. by apply (f_equal (λ m, length <$> m !! A)) in Heq.
Qed.

(** C7 as amended, at the same registration. *)
Lemma stray_registered_for_A :
  (add_constraint (fresh one_or_two) stray).2 = Some UnknownVariableError ∧
  variables (add_constraint (fresh one_or_two) stray).1
    = variables (fresh one_or_two) ∧
  domains (add_constraint (fresh one_or_two) stray).1
    = domains (fresh one_or_two) ∧
  ∀ v, constraints (add_constraint (fresh one_or_two) stray).1 !! v =
         (λ l, l ++ replicate (occurrences v [A]) stray) <$>
           constraints (fresh one_or_two) !! v.
Proof.
  apply (add_constraint_failure_keeps_prefix (fresh one_or_two) stray
           [A] "Z" []).
  - by apply fresh_constructed.
  - done.
  - intros v ->%list_elem_of_singleton. by left.
  - intros Hz. repeat (apply elem_of_cons in Hz as [Hz|Hz]; [done|]).
    by inversion Hz.
Defined.

(** C8 at the satisfiable example: a second search, on the object as the
    first one left it, yields what the first one yields. *)
Lemma second_search_same_solutions :
  ∃ r, backtracking_search policy 3 (problem one_or_two) ∅ (Some one_or_two)
         default_config = Some r ∧
       trace (backtracking_search policy 3 (final r) ∅ (Some one_or_two)
                default_config) =
       trace (backtracking_search policy 3 (problem one_or_two) ∅
                (Some one_or_two) default_config).
Proof.
  destruct one_or_two_run as (r & Hr & _). exists r. split; [exact Hr|].
  apply (search_deterministic policy 3 (problem one_or_two) (final r)).
  exact (search_keeps_constraints policy 3 default_config _ _ _ _ Hr).
Defined.

(** C9 at the satisfiable example. *)
Lemma one_or_two_search_terminates :
  ∃ r, ∀ fuel, length (variables (problem one_or_two)) < fuel →
         backtracking_search policy fuel (problem one_or_two) ∅
           (Some one_or_two) default_config = Some r.
Proof.
  apply (search_terminates policy (problem one_or_two) default_config ∅
           one_or_two).
  - apply selects_candidates_unassigned, policy_selects_candidates.
  - apply conforming_recursion_excludes;
      [done|apply problem_every, neq_never_adds
      |apply problem_every, neq_takes_out|apply problem_lists_nonempty].
  - intros v [d Hv]%elem_of_dom. unfold one_or_two in Hv.
    apply lookup_insert_Some in Hv as [[<- _]|[_ Hv]];
      [apply elem_of_list_to_set; by left|].
    apply lookup_singleton_Some in Hv as [<- _].
    apply elem_of_list_to_set. by right; left.
Defined.

(** C10 at a dictionary in which [B] has the empty set. *)
Lemma b_empty_accepted_never_assigned :
  (∃ self, __init__ [A; B] b_empty = inr self) ∧
  ∀ self cfg fuel r sol,
    selects_candidates policy cfg → every_constraint self never_adds →
    backtracking_search policy fuel self ∅ (Some b_empty) cfg = Some r →
    sol ∈ yielded r → sol !! B = None.
Proof.
  apply (empty_domain_accepted_never_assigned policy [A; B] b_empty B).
  - done.
  - intros w Hw. repeat (apply elem_of_cons in Hw as [->|Hw]; [by eexists|]).
    by inversion Hw.
Defined.

(** The satisfiable example of section 8 of the specification: with the
    domain [{1, 2}] for both variables the search yields the two solutions
    and no other, in this order, and ends without an exception. *)
Theorem satisfiable_example_two_solutions :
  ∃ r, (∀ fuel, 3 ≤ fuel →
          backtracking_search policy fuel (problem one_or_two) ∅
            (Some one_or_two) default_config = Some r) ∧
       yielded r = [{[ A := 1; B := 2 ]}; {[ A := 2; B := 1 ]}] ∧
       raised r = None.
Proof.
  destruct one_or_two_run as (r & Hr & Hy & He). exists r.
  split_and!; [|done..]. intros fuel Hfuel. by eapply search_fuel_mono.
Qed.

(** The value of [B] in the first solution of the satisfiable example is
    one of its candidates. *)
Lemma first_solution_value_of_B :
  ∃ d, one_or_two !! B = Some d ∧ 2 ∈ d.
Proof.
  destruct one_or_two_run as (r & Hr & Hy & _).
  apply (solution_values_from_domains policy (problem one_or_two)
           default_config 3 one_or_two r {[ A := 1; B := 2 ]} B 2).
  - apply policy_selects_candidates.
  - apply problem_every, neq_never_adds.
  - exact Hr.
  - rewrite Hy. by left.
  - reflexivity.
Defined.

(** *** More about the constraint and the policy of the examples *)

Lemma differ_by_parts : satisfied_by_parts differ.
Proof.
  intros a s Has Hs. simpl in *. unfold neq_satisfied in *.
  destruct (a !! A) as [x|] eqn:HA; [|done].
  destruct (a !! B) as [y|] eqn:HB; [|done].
  by rewrite (lookup_weaken _ _ _ _ HA Has), (lookup_weaken _ _ _ _ HB Has) in Hs.
Qed.

Lemma differ_keeps : propagate_keeps differ.
Proof.
  assert (A ≠ B) as HAB by done.
  intros v x u s Hv Hsat Hwithin. simpl in *.
  unfold neq_propagate, neq_satisfied in *.
  set (u'' := match (if decide (v = A) then Some B
                     else if decide (v = B) then Some A else None) with
              | Some w => alter (λ d, d ∖ {[x]}) w (delete v u)
              | None => delete v u
              end).
  assert (dom u'' = dom u ∖ {[v]}) as Hdom.
  { subst u''. repeat case_decide; by rewrite ?dom_alter_L, dom_delete_L. }
  assert (within u'' s) as Hin.
  { assert (Halter : ∀ w, w ≠ v →
              (∀ y, s !! w = Some y → y ≠ x) →
              within (alter (λ d, d ∖ {[x]}) w (delete v u)) s).
    { intros w Hwv Hdiff k d' Hk.
      apply lookup_alter_Some in Hk as [(<- & d & Hd & ->)|[_ Hk]];
        [|by apply Hwithin].
      destruct (Hwithin _ _ Hd) as (y & Hy & Hyd). exists y. split; [done|].
      apply elem_of_difference. split; [done|].
      intros ->%elem_of_singleton. by eapply Hdiff. }
    subst u''. case_decide as HvA; [subst v|case_decide as HvB; [subst v|done]].
    - apply Halter; [done|]. intros y Hy ->. rewrite Hv, Hy in Hsat.
      by apply bool_decide_eq_true in Hsat.
    - apply Halter; [done|]. intros y Hy ->. rewrite Hv, Hy in Hsat.
      by apply bool_decide_eq_true in Hsat. }
  exists u''. split_and!; [|done..].
  rewrite bool_decide_true; [done|].
  intros k d' Hk ->. destruct (Hin _ _ Hk) as (y & _ & Hy).
  by apply not_elem_of_empty in Hy.
Qed.

Lemma problem_constructed ds :
  is_Some (ds !! A) → is_Some (ds !! B) → constructed (problem ds).
Proof. intros. by apply built_constructed, problem_built. Qed.

Lemma one_or_two_keys : dom one_or_two ⊆ list_to_set [A; B].
Proof.
  intros v [d Hv]%elem_of_dom. unfold one_or_two in Hv.
  apply lookup_insert_Some in Hv as [[<- _]|[_ Hv]];
    [apply elem_of_list_to_set; by left|].
  apply lookup_singleton_Some in Hv as [<- _].
  apply elem_of_list_to_set. by right; left.
Qed.

Lemma policy_values cfg (u : gmap string (gset nat)) d :
  u !! (policy (search_strategy cfg) (order_domain cfg) u).1 = Some d →
  (policy (search_strategy cfg) (order_domain cfg) u).2 ≡ₚ elements d.
Proof.
  unfold policy, select_next_var. simpl. intros Hd.
  rewrite (lookup_total_correct _ _ _ Hd).
  destruct (order_domain cfg); [apply merge_sort_Permutation|done].
Qed.

Lemma policy_offers_all cfg : offers_all_candidates policy cfg.
Proof.
  intros u Hu. destruct (policy_selects_candidates cfg u Hu) as (d & Hd & _).
  exists d. split; [done|]. intros x Hx.
  rewrite (policy_values cfg u d Hd). by apply elem_of_elements.
Qed.

Lemma policy_offers_once cfg : offers_each_value_once policy cfg.
Proof.
  intros u Hu. destruct (policy_selects_candidates cfg u Hu) as (d & Hd & _).
  rewrite (policy_values cfg u d Hd). apply NoDup_elements.
Qed.

(** *** The further properties at the examples *)

(** The constructor on [[A, B]] and the dictionary of the satisfiable
    example. *)
Lemma fresh_postcondition :
  variables (fresh one_or_two) = [A; B] ∧
  domains (fresh one_or_two) = one_or_two ∧
  low_mark (fresh one_or_two) = length [A; B] ∧
  count (fresh one_or_two) = 0 ∧
  dom (constraints (fresh one_or_two)) = list_to_set [A; B] ∧
  ∀ v, v ∈ [A; B] → constraints (fresh one_or_two) !! v = Some [].
Proof.
  apply (init_postcondition [A; B] one_or_two (fresh one_or_two)).
  reflexivity.
Defined.

(** A constraint that names [A] twice is twice in the list of [A]. *)
Lemma twice_named_twice_registered :
  constraints (add_constraint (fresh one_or_two) (neq A A)).1 !! A
  = Some [neq A A; neq A A].
Proof.
  destruct (add_constraint_success_appends (fresh one_or_two) (neq A A))
    as (_ & _ & _ & _ & _ & Hlists).
  - by apply fresh_constructed.
  - intros v Hv. simpl in Hv.
    repeat (apply elem_of_cons in Hv as [->|Hv]; [by left|]). by inversion Hv.
  - rewrite Hlists. reflexivity.
Defined.

(** The registration invariant at the constraint of the examples. *)
Lemma differ_registration_invariant :
  dom (constraints (problem one_or_two))
    = list_to_set (variables (problem one_or_two)) ∧
  A ∈ variables (problem one_or_two) ∧ A ∈ Constraint.variables differ ∧
  ∀ w, w ∈ Constraint.variables differ →
    w ∈ variables (problem one_or_two) ∧
    ∃ cs', constraints (problem one_or_two) !! w = Some cs' ∧ differ ∈ cs'.
Proof.
  destruct (registration_invariant (problem one_or_two)) as [Hkeys Hlists].
  - by apply problem_built.
  - split; [exact Hkeys|].
    apply (Hlists A [differ] differ); [reflexivity|by left].
Defined.

(** [consistent] for a variable the problem does not have. *)
Lemma consistent_for_unknown_variable :
  consistent (problem one_or_two) "Z"%string ∅ = inl KeyError.
Proof.
  apply (consistent_raises_iff_unknown (problem one_or_two) "Z"%string ∅).
  - by apply problem_constructed.
  - intros Hz. simpl in Hz.
    repeat (apply elem_of_cons in Hz as [Hz|Hz]; [done|]). by inversion Hz.
Defined.

(** The object after the search of the satisfiable example. *)
Lemma one_or_two_only_marks_moved :
  ∃ r, backtracking_search policy 3 (problem one_or_two) ∅ (Some one_or_two)
         default_config = Some r ∧
       variables (final r) = variables (problem one_or_two) ∧
       domains (final r) = domains (problem one_or_two) ∧
       constraints (final r) = constraints (problem one_or_two) ∧
       low_mark (final r) ≤ low_mark (problem one_or_two) ∧
       count (final r) = count (problem one_or_two) + length (printed r).
Proof.
  destruct one_or_two_run as (r & Hr & _). exists r. split; [exact Hr|].
  exact (search_only_moves_marks policy 3 (problem one_or_two) ∅
           (Some one_or_two) default_config r Hr).
Defined.

Lemma only_C_nonempty : only_C ≠ ∅.
Proof. intros Heq. by apply (f_equal (λ m, m !! "C"%string)) in Heq. Qed.

(** A search from a dictionary whose key is no variable of the problem. *)
Lemma search_from_only_C_raises :
  ∃ r, backtracking_search policy 1 (problem one_or_two) ∅ (Some only_C)
         default_config = Some r ∧
       yielded r = [] ∧ raised r = Some KeyError.
Proof.
  apply (unknown_selected_variable_raises policy 0 (problem one_or_two) ∅
           only_C default_config "C"%string 1 []).
  - apply only_C_nonempty.
  - vm_compute. reflexivity.
  - reflexivity.
  - by left.
Defined.

(** The unsatisfiable example without propagation and without check:
    no allowance of a hundred nested calls is enough. *)
Lemma plain_search_exceeds_allowance :
  backtracking_search policy 100 (problem both_one) ∅ (Some both_one) plain
  = None.
Proof.
  apply (search_without_propagation_or_check_diverges policy plain both_one).
  - reflexivity.
  - reflexivity.
  - apply both_one_nonempty.
  - intros Hnil. vm_compute in Hnil. discriminate Hnil.
Defined.

Lemma b_empty_nonempty : b_empty ≠ ∅.
Proof. intros Heq. by apply (f_equal (λ m, m !! A)) in Heq. Qed.

Lemma b_empty_plain_run :
  ∃ r, backtracking_search policy 1 (problem b_empty) ∅ (Some b_empty) plain
         = Some r.
Proof.
  assert (trace (backtracking_search policy 1 (problem b_empty) ∅
                   (Some b_empty) plain) = Some ([], None)) as Ht.
  { vm_compute. reflexivity. }
  destruct (backtracking_search policy 1 (problem b_empty) ∅ (Some b_empty)
              plain) as [r|]; [by exists r|done].
Qed.

(** Without propagation, a search that returns has found nothing. *)
Lemma b_empty_plain_no_solution :
  ∃ r, backtracking_search policy 1 (problem b_empty) ∅ (Some b_empty) plain
         = Some r ∧ yielded r = [].
Proof.
  destruct b_empty_plain_run as [r Hr]. exists r. split; [exact Hr|].
  apply (no_solution_without_propagation policy 1 (problem b_empty) ∅ b_empty
           plain r).
  - reflexivity.
  - apply b_empty_nonempty.
  - exact Hr.
Defined.

(** The search of the satisfiable example raises nothing. *)
Lemma one_or_two_raises_nothing :
  ∃ r, (∀ fuel, 2 < fuel →
          backtracking_search policy fuel (problem one_or_two) ∅
            (Some one_or_two) default_config = Some r) ∧
       raised r = None.
Proof.
  destruct (search_on_variables_raises_nothing policy (problem one_or_two) ∅
              one_or_two default_config) as [_ Hreturns].
  - by apply problem_constructed.
  - apply one_or_two_keys.
  - apply selects_candidates_unassigned, policy_selects_candidates.
  - apply problem_every, neq_never_adds.
  - apply Hreturns.
    eapply conforming_recursion_excludes;
      [done|apply problem_every, neq_never_adds
      |apply problem_every, neq_takes_out|apply problem_lists_nonempty].
Defined.

(** The solutions of the satisfiable example are distinct. *)
Lemma one_or_two_solutions_distinct :
  ∃ r, backtracking_search policy 3 (problem one_or_two) ∅ (Some one_or_two)
         default_config = Some r ∧ NoDup (yielded r).
Proof.
  destruct one_or_two_run as (r & Hr & _). exists r. split; [exact Hr|].
  apply (solutions_distinct policy 3 (problem one_or_two) ∅ (Some one_or_two)
           default_config r).
  - apply selects_candidates_unassigned, policy_selects_candidates.
  - apply policy_offers_once.
  - apply conforming_recursion_excludes;
      [done|apply problem_every, neq_never_adds
      |apply problem_every, neq_takes_out|apply problem_lists_nonempty].
  - exact Hr.
Defined.

(** The search of the satisfiable example finds [{A: 2, B: 1}]. *)
Lemma one_or_two_finds_second_solution :
  ∃ r, backtracking_search policy 3 (problem one_or_two) ∅ (Some one_or_two)
         default_config = Some r ∧
       ({[ A := 2; B := 1 ]} : gmap string nat) ∈ yielded r.
Proof.
  destruct one_or_two_run as (r & Hr & _ & He). exists r. split; [exact Hr|].
  apply (search_exhaustive policy 3 (problem one_or_two) default_config
           one_or_two {[ A := 2; B := 1 ]} r).
  - reflexivity.
  - apply policy_offers_all.
  - apply problem_every, differ_by_parts.
  - apply problem_every, differ_keeps.
  - intros v [d Hv]%elem_of_dom. unfold one_or_two in Hv.
    apply lookup_insert_Some in Hv as [[<- _]|[_ Hv]]; [by eexists _, _|].
    apply lookup_singleton_Some in Hv as [<- _]. by eexists _, _.
  - unfold one_or_two. by rewrite !dom_insert_L, !dom_singleton_L.
  - intros w d Hw. unfold one_or_two in Hw.
    apply lookup_insert_Some in Hw as [[<- <-]|[_ Hw]].
    { exists 2. split; [done|]. apply elem_of_union. right.
      by apply elem_of_singleton. }
    apply lookup_singleton_Some in Hw as [<- <-].
    exists 1. split; [done|]. apply elem_of_union. left.
    by apply elem_of_singleton.
  - by apply problem_every.
  - exact Hr.
  - exact He.
Defined.

End examples.
